(** * pjutil: helpers for working with ProwJobs

    A shallow embedding of package [pjutil] (job templates to job specs,
    job specs to records, records to pods, partitioning and latest-run
    selection) together with the properties its specification states.

    Conventions of the embedding:
    - a Go map from strings to strings is a [gmap string string] (a nil map
      and an empty map are both [∅]);
    - a Go slice that the code only reads or builds afresh is a [list], and
      [append] to it is [++]; the slices of environment variables, to which
      the code appends in place, are views of shared backing arrays;
    - a Go run-time panic (nil dereference, index out of range) and a send
      that can never complete are the [None] of an outer [option];
    - a Go result pair of a pointer and an [error] is a pair of options
      ([None] is nil). *)

From stdpp Require Import gmap strings list fin_maps pretty.

#[local] Set Warnings "-register-all".

Local Open Scope string_scope.
Local Open Scope list_scope.
Local Open Scope Z_scope.

(** ** Time (metav1.Time wraps time.Time)

    An instant is its offset from Go's zero time (January 1, year 1,
    00:00:00 UTC); instants before it are negative. *)

Definition Time : Type := Z.
Definition zero_Time : Time := 0.

(** [t.After(u)]: whether the instant [t] is after [u]. *)
Definition After (t u : Time) : bool := bool_decide (u < t).

(** ** k8s.io/api/core/v1: the fields of the pod types that the package
    reads or writes. *)

Record EnvVar := { env_Name : string; env_Value : string }.

Definition zero_EnvVar : EnvVar := {| env_Name := ""; env_Value := "" |}.

(** A slice of environment variables is a view of a backing array: the
    array, the offset of the slice's first element in it, its length and its
    capacity. Two slices may view the same array. The zero value is the nil
    slice. *)
Record EnvSlice := {
  sl_arr : nat;
  sl_off : nat;
  sl_len : nat;
  sl_cap : nat
}.

Definition nil_EnvSlice : EnvSlice :=
  {| sl_arr := 0; sl_off := 0; sl_len := 0; sl_cap := 0 |}.

(** The backing arrays, by allocation order. *)
Abbreviation Heap := (list (list EnvVar)).

Definition cells (h : Heap) (a : nat) : list EnvVar := default [] (h !! a).

(** The [n] cells of array [a] from position [lo] on. *)
Definition peek (h : Heap) (a lo n : nat) : list EnvVar :=
  take n (drop lo (cells h a)).

(** The elements of a slice. *)
Definition readEnv (h : Heap) (s : EnvSlice) : list EnvVar :=
  peek h (sl_arr s) (sl_off s) (sl_len s).

(** [append(s, xs...)]: when the capacity of [s] suffices, the elements are
    written into the backing array of [s], after its last element, and the
    result views the same array; otherwise a new array is allocated, with
    the elements of [s], then [xs], then the spare capacity that the run
    time chooses ([spareCap], from the old capacity and the needed
    length). *)
Definition appendEnv (spareCap : nat → nat → nat) (h : Heap) (s : EnvSlice)
    (xs : list EnvVar) : Heap * EnvSlice :=
  let need := (sl_len s + length xs)%nat in
  if decide (need ≤ sl_cap s)%nat then
    (alter (list_inserts (sl_off s + sl_len s) xs) (sl_arr s) h,
     {| sl_arr := sl_arr s; sl_off := sl_off s; sl_len := need;
        sl_cap := sl_cap s |})
  else
    let extra := spareCap (sl_cap s) need in
    (h ++ [readEnv h s ++ xs ++ replicate extra zero_EnvVar],
     {| sl_arr := length h; sl_off := 0; sl_len := need;
        sl_cap := (need + extra)%nat |}).

Record Container := {
  ctr_Name : string;
  ctr_Image : string;
  ctr_Command : list string;
  ctr_Args : list string;
  ctr_Env : EnvSlice
}.

Record PodSpec := {
  ps_InitContainers : list Container;
  ps_Containers : list Container;
  ps_RestartPolicy : string
}.

(** The zero value of [v1.PodSpec]. *)
Definition zero_PodSpec : PodSpec :=
  {| ps_InitContainers := []; ps_Containers := []; ps_RestartPolicy := "" |}.

Record ObjectMeta := {
  om_Name : string;
  om_Labels : gmap string string;
  om_Annotations : gmap string string
}.

Record Pod := { pod_ObjectMeta : ObjectMeta; pod_Spec : PodSpec }.

Definition set_ctr_Name (n : string) (c : Container) : Container :=
  {| ctr_Name := n; ctr_Image := ctr_Image c; ctr_Command := ctr_Command c;
     ctr_Args := ctr_Args c; ctr_Env := ctr_Env c |}.

Definition set_ctr_Env (e : EnvSlice) (c : Container) : Container :=
  {| ctr_Name := ctr_Name c; ctr_Image := ctr_Image c;
     ctr_Command := ctr_Command c; ctr_Args := ctr_Args c; ctr_Env := e |}.

(** ** Package kube: refs, job specs and job records *)

Record Pull := { pull_Number : Z; pull_Author : string; pull_SHA : string }.

Record Refs := {
  refs_Org : string;
  refs_Repo : string;
  refs_BaseRef : string;
  refs_Pulls : list Pull
}.

(** The zero value of [kube.Refs]: what a spec built without refs holds. *)
Definition zero_Refs : Refs :=
  {| refs_Org := ""; refs_Repo := ""; refs_BaseRef := ""; refs_Pulls := [] |}.

(** Modelled from the spec: [kube.ProwJobType] is declared in package kube,
    which is not among the sources; section 3 of the specification gives its
    four tags. *)
Inductive ProwJobType := PresubmitJob | PostsubmitJob | PeriodicJob | BatchJob.

(** Modelled from the spec: [kube.ProwJobState] is declared in package kube,
    which is not among the sources; section 3 of the specification gives its
    six lifecycle states. *)
Inductive ProwJobState :=
  | TriggeredState | PendingState | SuccessState
  | FailureState | AbortedState | ErrorState.

Global Instance ProwJobType_eq_dec : EqDecision ProwJobType.
Proof. solve_decision. Defined.

Global Instance ProwJobState_eq_dec : EqDecision ProwJobState.
Proof. solve_decision. Defined.

Inductive ProwJobSpec := Build_ProwJobSpec {
  pjs_Type : ProwJobType;
  pjs_Agent : string;
  pjs_Cluster : string;
  pjs_Job : string;
  pjs_Refs : Refs;
  pjs_Report : bool;
  pjs_Context : string;
  pjs_RerunCommand : string;
  pjs_MaxConcurrency : Z;
  pjs_PodSpec : PodSpec;
  pjs_RunAfterSuccess : list ProwJobSpec
}.

Record ProwJobStatus := { st_StartTime : Time; st_State : ProwJobState }.

Record ProwJob := {
  pj_APIVersion : string;
  pj_Kind : string;
  pj_ObjectMeta : ObjectMeta;
  pj_Spec : ProwJobSpec;
  pj_Status : ProwJobStatus
}.

Definition set_pjs_Agent (a : string) (s : ProwJobSpec) : ProwJobSpec :=
  Build_ProwJobSpec (pjs_Type s) a (pjs_Cluster s) (pjs_Job s) (pjs_Refs s)
    (pjs_Report s) (pjs_Context s) (pjs_RerunCommand s) (pjs_MaxConcurrency s)
    (pjs_PodSpec s) (pjs_RunAfterSuccess s).

Definition set_pjs_Cluster (c : string) (s : ProwJobSpec) : ProwJobSpec :=
  Build_ProwJobSpec (pjs_Type s) (pjs_Agent s) c (pjs_Job s) (pjs_Refs s)
    (pjs_Report s) (pjs_Context s) (pjs_RerunCommand s) (pjs_MaxConcurrency s)
    (pjs_PodSpec s) (pjs_RunAfterSuccess s).

Definition set_pjs_PodSpec (p : PodSpec) (s : ProwJobSpec) : ProwJobSpec :=
  Build_ProwJobSpec (pjs_Type s) (pjs_Agent s) (pjs_Cluster s) (pjs_Job s)
    (pjs_Refs s) (pjs_Report s) (pjs_Context s) (pjs_RerunCommand s)
    (pjs_MaxConcurrency s) p (pjs_RunAfterSuccess s).

Definition set_pjs_RunAfterSuccess (l : list ProwJobSpec) (s : ProwJobSpec)
  : ProwJobSpec :=
  Build_ProwJobSpec (pjs_Type s) (pjs_Agent s) (pjs_Cluster s) (pjs_Job s)
    (pjs_Refs s) (pjs_Report s) (pjs_Context s) (pjs_RerunCommand s)
    (pjs_MaxConcurrency s) (pjs_PodSpec s) l.

(** The constants of package kube that the code names. Their values are
    declared outside the sources, so they are parameters of the model. *)
Record KubeConsts := {
  KubernetesAgent : string;
  DefaultClusterAlias : string;
  CreatedByProw : string;
  ProwJobTypeLabel : string;
  ProwJobAnnotation : string;
  (** [string(t)] for a job type [t] *)
  ProwJobType_string : ProwJobType → string
}.

(** ** Package config: job templates

    [Spec] is a [*v1.PodSpec]: [None] is the nil pointer. *)

Inductive Presubmit := Build_Presubmit {
  pre_Name : string;
  pre_SkipReport : bool;
  pre_Context : string;
  pre_RerunCommand : string;
  pre_MaxConcurrency : Z;
  pre_Agent : string;
  pre_Spec : option PodSpec;
  pre_Cluster : string;
  pre_RunAfterSuccess : list Presubmit
}.

Inductive Postsubmit := Build_Postsubmit {
  post_Name : string;
  post_MaxConcurrency : Z;
  post_Agent : string;
  post_Spec : option PodSpec;
  post_Cluster : string;
  post_RunAfterSuccess : list Postsubmit
}.

Inductive Periodic := Build_Periodic {
  per_Name : string;
  per_Agent : string;
  per_Spec : option PodSpec;
  per_Cluster : string;
  per_RunAfterSuccess : list Periodic
}.

(** ** Spec builders *)

(** The loop that ends each builder, [build] being the builder's own
    recursive call:
    [for _, nextP := range l { pjs.RunAfterSuccess =
       append(pjs.RunAfterSuccess, build(nextP)) }].
    A panic in a recursive call ends the loop. *)
Definition rangeChildren {T : Type} (build : T → option ProwJobSpec)
    : list T → ProwJobSpec → option ProwJobSpec :=
  fix range (l : list T) (pjs : ProwJobSpec) : option ProwJobSpec :=
    match l with
    | [] => Some pjs
    | nextP :: l =>
        next ← build nextP;
        range l (set_pjs_RunAfterSuccess
                   (pjs_RunAfterSuccess pjs ++ [next]) pjs)
    end.

Section SpecBuilders.
Context (K : KubeConsts).

(** The block shared by the four builders:
    [if pjs.Agent == kube.KubernetesAgent { pjs.PodSpec = *spec;
     pjs.Cluster = cluster; if pjs.Cluster is empty { pjs.Cluster =
     kube.DefaultClusterAlias } }].
    Dereferencing a nil [spec] panics. *)
Definition agentFields (spec : option PodSpec) (cluster : string)
    (pjs : ProwJobSpec) : option ProwJobSpec :=
  if decide (pjs_Agent pjs = KubernetesAgent K) then
    podSpec ← spec;
    let pjs := set_pjs_PodSpec podSpec pjs in
    let pjs := set_pjs_Cluster cluster pjs in
    if decide (pjs_Cluster pjs = "")
    then Some (set_pjs_Cluster (DefaultClusterAlias K) pjs)
    else Some pjs
  else Some pjs.

Fixpoint PresubmitSpec (p : Presubmit) (refs : Refs) : option ProwJobSpec :=
  let pjs :=
    {| pjs_Type := PresubmitJob; pjs_Job := pre_Name p; pjs_Refs := refs;
       pjs_Report := negb (pre_SkipReport p);
       pjs_Context := pre_Context p;
       pjs_RerunCommand := pre_RerunCommand p;
       pjs_MaxConcurrency := pre_MaxConcurrency p;
       pjs_Agent := ""; pjs_Cluster := ""; pjs_PodSpec := zero_PodSpec;
       pjs_RunAfterSuccess := [] |} in
  let pjs := set_pjs_Agent (pre_Agent p) pjs in
  pjs ← agentFields (pre_Spec p) (pre_Cluster p) pjs;
  rangeChildren (λ nextP, PresubmitSpec nextP refs)
    (pre_RunAfterSuccess p) pjs.

Fixpoint PostsubmitSpec (p : Postsubmit) (refs : Refs)
    : option ProwJobSpec :=
  let pjs :=
    {| pjs_Type := PostsubmitJob; pjs_Job := post_Name p; pjs_Refs := refs;
       pjs_MaxConcurrency := post_MaxConcurrency p;
       pjs_Report := false; pjs_Context := ""; pjs_RerunCommand := "";
       pjs_Agent := ""; pjs_Cluster := ""; pjs_PodSpec := zero_PodSpec;
       pjs_RunAfterSuccess := [] |} in
  let pjs := set_pjs_Agent (post_Agent p) pjs in
  pjs ← agentFields (post_Spec p) (post_Cluster p) pjs;
  rangeChildren (λ nextP, PostsubmitSpec nextP refs)
    (post_RunAfterSuccess p) pjs.

Fixpoint PeriodicSpec (p : Periodic) : option ProwJobSpec :=
  let pjs :=
    {| pjs_Type := PeriodicJob; pjs_Job := per_Name p;
       pjs_Refs := zero_Refs; pjs_MaxConcurrency := 0;
       pjs_Report := false; pjs_Context := ""; pjs_RerunCommand := "";
       pjs_Agent := ""; pjs_Cluster := ""; pjs_PodSpec := zero_PodSpec;
       pjs_RunAfterSuccess := [] |} in
  let pjs := set_pjs_Agent (per_Agent p) pjs in
  pjs ← agentFields (per_Spec p) (per_Cluster p) pjs;
  rangeChildren (λ nextP, PeriodicSpec nextP) (per_RunAfterSuccess p) pjs.

Fixpoint BatchSpec (p : Presubmit) (refs : Refs) : option ProwJobSpec :=
  let pjs :=
    {| pjs_Type := BatchJob; pjs_Job := pre_Name p; pjs_Refs := refs;
       pjs_Context := pre_Context p;
       pjs_MaxConcurrency := 0;
       pjs_Report := false; pjs_RerunCommand := "";
       pjs_Agent := ""; pjs_Cluster := ""; pjs_PodSpec := zero_PodSpec;
       pjs_RunAfterSuccess := [] |} in
  let pjs := set_pjs_Agent (pre_Agent p) pjs in
  pjs ← agentFields (pre_Spec p) (pre_Cluster p) pjs;
  rangeChildren (λ nextP, BatchSpec nextP refs) (pre_RunAfterSuccess p) pjs.

End SpecBuilders.

(** ** NewProwJob

    [uuid.NewV1] and [metav1.Now] read the process-wide identifier generator
    and the wall clock. Both are operations on an explicit world state, called
    in the order of the composite literal. *)

Section RecordFactory.
Context {World : Type}.
Context (uuid_NewV1_String : World → string * World).
Context (metav1_Now : World → Time * World).

Definition NewProwJob (spec : ProwJobSpec) (labels : gmap string string)
    (w : World) : ProwJob * World :=
  let '(name, w) := uuid_NewV1_String w in
  let '(now, w) := metav1_Now w in
  ({| pj_APIVersion := "prow.k8s.io/v1";
      pj_Kind := "ProwJob";
      pj_ObjectMeta :=
        {| om_Name := name; om_Labels := labels; om_Annotations := ∅ |};
      pj_Spec := spec;
      pj_Status := {| st_StartTime := now; st_State := TriggeredState |} |},
   w).

End RecordFactory.

(** ** ProwJobToPod *)

(** [for i := range xs { body }] over the indices [i, i+1, ..., i+n-1],
    threading the loop state; a panic in the body ends the loop. *)
Fixpoint rangeLoop {St : Type} (body : nat → St → option St) (i n : nat)
    (s : St) : option St :=
  match n with
  | O => Some s
  | S n => s ← body i s; rangeLoop body (S i) n s
  end.

(** An assignment to a field of the element at index [i], with the index
    check that Go makes: out of range, a panic. *)
Definition update_at {A : Type} (i : nat) (f : A → A) (l : list A)
    : option (list A) :=
  x ← l !! i; Some (<[i := f x]> l).

(** [fmt.Sprintf] with the format of the default container name: the string,
    a dash, the index in decimal. *)
Definition Sprintf_s_d (s : string) (i : nat) : string :=
  s +:+ "-" +:+ pretty i.

Definition set_ps_RestartPolicy (r : string) (p : PodSpec) : PodSpec :=
  {| ps_InitContainers := ps_InitContainers p;
     ps_Containers := ps_Containers p; ps_RestartPolicy := r |}.

Definition set_ps_InitContainers (l : list Container) (p : PodSpec) : PodSpec :=
  {| ps_InitContainers := l; ps_Containers := ps_Containers p;
     ps_RestartPolicy := ps_RestartPolicy p |}.

Definition set_ps_Containers (l : list Container) (p : PodSpec) : PodSpec :=
  {| ps_InitContainers := ps_InitContainers p; ps_Containers := l;
     ps_RestartPolicy := ps_RestartPolicy p |}.

(** kubeEnv transforms a mapping of environment variables into their
    serialized form for a PodSpec. Go leaves the order in which [range]
    visits a map unspecified: [order] is the order of this traversal. *)
Definition kubeEnv (order : gmap string string → list (string * string))
    (environment : gmap string string) : list EnvVar :=
  foldl (λ kubeEnvironment kv,
           kubeEnvironment ++ [ {| env_Name := kv.1; env_Value := kv.2 |} ])
        [] (order environment).

Section Materializer.
Context (K : KubeConsts).
Context {JobSpec error : Type}.
Context (NewJobSpec : ProwJobSpec → string → string → JobSpec).
Context (EnvForSpec : JobSpec → gmap string string * option error).
(** [rangeOrder k] is the order of the [k]-th map traversal of a call
    (two traversals of one map may differ). *)
Context (rangeOrder : nat → gmap string string → list (string * string)).
(** The spare capacity that [append] gives a newly allocated array. *)
Context (spareCap : nat → nat → nat).

(** One iteration of the loops over the init-containers and over the
    containers. The state is the list built so far, the number of map
    traversals made and the backing arrays. Copying a container copies its
    slice of environment variables, not the array behind it. *)
Definition containerStep (src : list Container) (name : string)
    (env : gmap string string) (i : nat) (st : list Container * nat * Heap)
    : option (list Container * nat * Heap) :=
  let '(out, k, h) := st in
  c ← src !! i;
  let out := out ++ [c] in
  ci ← out !! i;
  out ← (if decide (ctr_Name ci = "")
         then update_at i (set_ctr_Name (Sprintf_s_d name i)) out
         else Some out);
  ci ← out !! i;
  let kenv := kubeEnv (rangeOrder k) env in
  let '(h, e) := appendEnv spareCap h (ctr_Env ci) kenv in
  out ← update_at i (set_ctr_Env e) out;
  Some (out, S k, h).

Definition ProwJobToPod (pj : ProwJob) (buildID : string) (h : Heap)
    : option (option Pod * option error * Heap) :=
  let '(env, err) :=
    EnvForSpec (NewJobSpec (pj_Spec pj) buildID (om_Name (pj_ObjectMeta pj)))
  in
  match err with
  | Some e => Some (None, Some e, h)
  | None =>
      let name := om_Name (pj_ObjectMeta pj) in
      let spec := pjs_PodSpec (pj_Spec pj) in
      let spec := set_ps_RestartPolicy "Never" spec in
      let src := ps_InitContainers (pjs_PodSpec (pj_Spec pj)) in
      '(inits, k, h) ← rangeLoop (containerStep src name env) 0 (length src)
                                 ([], 0%nat, h);
      let spec := set_ps_InitContainers inits spec in
      let src := ps_Containers (pjs_PodSpec (pj_Spec pj)) in
      '(ctrs, k, h) ← rangeLoop (containerStep src name env) 0 (length src)
                                ([], k, h);
      let spec := set_ps_Containers ctrs spec in
      let podLabels :=
        foldl (λ podLabels kv, <[kv.1 := kv.2]> podLabels) ∅
              (rangeOrder k (om_Labels (pj_ObjectMeta pj))) in
      let podLabels := <[CreatedByProw K := "true"]> podLabels in
      let podLabels :=
        <[ProwJobTypeLabel K :=
            ProwJobType_string K (pjs_Type (pj_Spec pj))]> podLabels in
      Some (Some {| pod_ObjectMeta :=
                      {| om_Name := om_Name (pj_ObjectMeta pj);
                         om_Labels := podLabels;
                         om_Annotations :=
                           {[ ProwJobAnnotation K := pjs_Job (pj_Spec pj) ]}
                      |};
                    pod_Spec := spec |},
            None, h)
  end.

End Materializer.

(** ** PartitionActive

    A buffered channel: its queue, its capacity and whether it is closed. *)

Record chan := {
  ch_buf : list ProwJob;
  ch_cap : nat;
  ch_closed : bool
}.

(** [make(chan kube.ProwJob, n)] *)
Definition make_chan (n : nat) : chan :=
  {| ch_buf := []; ch_cap := n; ch_closed := false |}.

(** [c <- x] with no receiver: completes when the buffer has room; on a full
    buffer the send blocks for ever and on a closed channel it panics. *)
Definition send (c : chan) (x : ProwJob) : option chan :=
  if ch_closed c then None
  else if decide (length (ch_buf c) < ch_cap c)%nat
       then Some {| ch_buf := ch_buf c ++ [x]; ch_cap := ch_cap c;
                    ch_closed := false |}
       else None.

(** [close(c)]; closing a closed channel panics. *)
Definition close (c : chan) : option chan :=
  if ch_closed c then None
  else Some {| ch_buf := ch_buf c; ch_cap := ch_cap c; ch_closed := true |}.

Definition PartitionActive (pjs : list ProwJob) : option (chan * chan) :=
  let '(pendingCount, triggeredCount) :=
    foldl (λ '(pendingCount, triggeredCount) pj,
             match st_State (pj_Status pj) with
             | PendingState => (S pendingCount, triggeredCount)
             | TriggeredState => (pendingCount, S triggeredCount)
             | _ => (pendingCount, triggeredCount)
             end) (0%nat, 0%nat) pjs in
  let pending := make_chan pendingCount in
  let triggered := make_chan triggeredCount in
  '(pending, triggered) ←
    foldl (λ chans pj,
             '(pending, triggered) ← chans;
             match st_State (pj_Status pj) with
             | PendingState =>
                 pending ← send pending pj; Some (pending, triggered)
             | TriggeredState =>
                 triggered ← send triggered pj; Some (pending, triggered)
             | _ => Some (pending, triggered)
             end) (Some (pending, triggered)) pjs;
  pending ← close pending;
  triggered ← close triggered;
  Some (pending, triggered).

(** ** GetLatestProwJobs *)

(** The start time of the entry of [name]: indexing a map at a missing key
    gives the zero record, whose start time is the zero time. *)
Definition startTimeAt (latestJobs : gmap string ProwJob) (name : string)
    : Time :=
  from_option (λ j, st_StartTime (pj_Status j)) zero_Time (latestJobs !! name).

Definition GetLatestProwJobs (pjs : list ProwJob) (jobType : ProwJobType)
    : gmap string ProwJob :=
  foldl (λ latestJobs j,
           if decide (pjs_Type (pj_Spec j) ≠ jobType) then latestJobs
           else
             let name := pjs_Job (pj_Spec j) in
             if After (st_StartTime (pj_Status j)) (startTimeAt latestJobs name)
             then <[name := j]> latestJobs
             else latestJobs) ∅ pjs.

(** ** Notions used to state the properties *)

(** The tree of job names of a continuation chain. *)
Inductive NameTree := NameNode (name : string) (children : list NameTree).

Fixpoint spec_names (s : ProwJobSpec) : NameTree :=
  NameNode (pjs_Job s) (map spec_names (pjs_RunAfterSuccess s)).

Fixpoint presubmit_names (p : Presubmit) : NameTree :=
  NameNode (pre_Name p) (map presubmit_names (pre_RunAfterSuccess p)).

Fixpoint postsubmit_names (p : Postsubmit) : NameTree :=
  NameNode (post_Name p) (map postsubmit_names (post_RunAfterSuccess p)).

Fixpoint periodic_names (p : Periodic) : NameTree :=
  NameNode (per_Name p) (map periodic_names (per_RunAfterSuccess p)).

(** A spec and all its descendants in the continuation chain, root first. *)
Fixpoint all_specs (s : ProwJobSpec) : list ProwJobSpec :=
  s :: concat (map all_specs (pjs_RunAfterSuccess s)).

(** Well-formed templates: at every depth, a template for the Kubernetes
    agent has its pod template. (On any other template the builders
    dereference a nil pointer.) *)
Definition has_pod_template (K : KubeConsts) (agent : string)
    (spec : option PodSpec) : bool :=
  if decide (agent = KubernetesAgent K) then bool_decide (is_Some spec)
  else true.

Fixpoint presubmit_ok (K : KubeConsts) (p : Presubmit) : bool :=
  has_pod_template K (pre_Agent p) (pre_Spec p)
  && forallb (presubmit_ok K) (pre_RunAfterSuccess p).

Fixpoint postsubmit_ok (K : KubeConsts) (p : Postsubmit) : bool :=
  has_pod_template K (post_Agent p) (post_Spec p)
  && forallb (postsubmit_ok K) (post_RunAfterSuccess p).

Fixpoint periodic_ok (K : KubeConsts) (p : Periodic) : bool :=
  has_pod_template K (per_Agent p) (per_Spec p)
  && forallb (periodic_ok K) (per_RunAfterSuccess p).

(** What the agent-conditional fields of a built spec must be for a template
    with the given agent, pod template and cluster. *)
Definition agent_fields_ok (K : KubeConsts) (agent : string)
    (spec : option PodSpec) (cluster : string) (pjs : ProwJobSpec) : Prop :=
  pjs_Agent pjs = agent ∧
  if decide (agent = KubernetesAgent K)
  then spec = Some (pjs_PodSpec pjs) ∧
       pjs_Cluster pjs =
         (if decide (cluster = "") then DefaultClusterAlias K else cluster)
  else pjs_PodSpec pjs = zero_PodSpec ∧ pjs_Cluster pjs = "".

(** A built spec mirrors a template's continuation chain: as many
    continuations as the template has children, the i-th with the name of the
    i-th child, and the same tree of names at every depth. *)
Definition mirrors_chain {T : Type} (tname : T → string) (kids : list T)
    (names : NameTree) (pjs : ProwJobSpec) : Prop :=
  length (pjs_RunAfterSuccess pjs) = length kids ∧
  (∀ i c, kids !! i = Some c →
          ∃ s, pjs_RunAfterSuccess pjs !! i = Some s ∧ pjs_Job s = tname c) ∧
  spec_names pjs = names.

(** The records in a given lifecycle state. *)
Definition hasState (s : ProwJobState) (pj : ProwJob) : Prop :=
  st_State (pj_Status pj) = s.

Global Instance hasState_dec s pj : Decision (hasState s pj).
Proof. unfold hasState. apply _. Defined.

Definition startTime (j : ProwJob) : Time := st_StartTime (pj_Status j).

(** The records of a job type and job name, in input order. *)
Definition candidates (pjs : list ProwJob) (jobType : ProwJobType)
    (name : string) : list ProwJob :=
  filter (λ j, pjs_Type (pj_Spec j) = jobType ∧ pjs_Job (pj_Spec j) = name)
         pjs.

(** [j] is the first of the records of [l] with the greatest start time:
    everything before it started strictly earlier, nothing after it started
    later. *)
Definition first_latest (j : ProwJob) (l : list ProwJob) : Prop :=
  ∃ l1 l2, l = l1 ++ j :: l2 ∧
           Forall (λ j', (startTime j' < startTime j)%Z) l1 ∧
           Forall (λ j', (startTime j' ≤ startTime j)%Z) l2.

(** The selection of the latest record per job name, read over every job
    name that has a record of the type. *)
Definition keeps_latest_per_name (pjs : list ProwJob) (jobType : ProwJobType)
    (m : gmap string ProwJob) : Prop :=
  (∀ name j, m !! name = Some j → pjs_Type (pj_Spec j) = jobType) ∧
  (∀ name, candidates pjs jobType name ≠ [] →
           ∃ j, m !! name = Some j ∧
                first_latest j (candidates pjs jobType name)) ∧
  (∀ name, candidates pjs jobType name = [] → m !! name = None).

(** The same selection, over the job names that have a record of the type
    started strictly after the zero time; the other job names have no
    entry. *)
Definition keeps_latest_after_zero (pjs : list ProwJob)
    (jobType : ProwJobType) (m : gmap string ProwJob) : Prop :=
  (∀ name j, m !! name = Some j → pjs_Type (pj_Spec j) = jobType) ∧
  (∀ name, Exists (λ j, (zero_Time < startTime j)%Z)
                  (candidates pjs jobType name) →
           ∃ j, m !! name = Some j ∧
                first_latest j (candidates pjs jobType name)) ∧
  (∀ name, Forall (λ j, (startTime j ≤ zero_Time)%Z)
                  (candidates pjs jobType name) →
           m !! name = None).

(** A traversal order of maps visits every entry of the map once. *)
Definition visits_all
    (rangeOrder : nat → gmap string string → list (string * string)) : Prop :=
  ∀ k m, rangeOrder k m ≡ₚ map_to_list m.

(** The entries of an environment mapping, as environment variables. *)
Definition env_entries (env : gmap string string) : list EnvVar :=
  (λ kv, {| env_Name := kv.1; env_Value := kv.2 |}) <$> map_to_list env.

(** [out] is [src] with the names defaulted for the record [name]:
    position by position, the same container with an empty name replaced by
    the default name of that position. *)
Definition names_defaulted (name : string) (src out : list Container) : Prop :=
  length out = length src ∧
  ∀ i c, src !! i = Some c →
    ∃ c',
      out !! i = Some c' ∧
      ctr_Name c' =
        (if decide (ctr_Name c = "") then Sprintf_s_d name i else ctr_Name c) ∧
      ctr_Image c' = ctr_Image c ∧ ctr_Command c' = ctr_Command c ∧
      ctr_Args c' = ctr_Args c.

(** From the arrays [h] to the arrays [h'], the containers of [out] have the
    environment of the containers of [src] followed by the entries of [env],
    and the containers of [src] still have the environment they had. *)
Definition env_appended (h h' : Heap) (env : gmap string string)
    (src out : list Container) : Prop :=
  ∀ i c, src !! i = Some c →
    ∃ c' added,
      out !! i = Some c' ∧
      readEnv h' (ctr_Env c') = readEnv h (ctr_Env c) ++ added ∧
      added ≡ₚ env_entries env ∧
      (∀ key value, env !! key = Some value →
         {| env_Name := key; env_Value := value |} ∈ readEnv h' (ctr_Env c')) ∧
      readEnv h' (ctr_Env c) = readEnv h (ctr_Env c).

(** A slice lies within its array. *)
Definition slice_ok (h : Heap) (s : EnvSlice) : Prop :=
  (sl_len s ≤ sl_cap s)%nat ∧
  ((0 < sl_cap s)%nat →
   (sl_off s + sl_cap s ≤ length (cells h (sl_arr s)))%nat).

(** The spare capacity of [s], the cells between its length and its
    capacity, is none of the cells that [t] can reach. *)
Definition spare_clear_of (s t : EnvSlice) : Prop :=
  sl_arr s ≠ sl_arr t ∨ (sl_cap s ≤ sl_len s)%nat ∨ sl_cap t = 0%nat ∨
  (sl_off s + sl_cap s ≤ sl_off t)%nat ∨
  (sl_off t + sl_cap t ≤ sl_off s + sl_len s)%nat.

(** The slices of a list lie within their arrays, and the spare capacity of
    each is clear of all the others. *)
Definition env_separate (h : Heap) (l : list EnvSlice) : Prop :=
  Forall (slice_ok h) l ∧
  ∀ i j s t, i ≠ j → l !! i = Some s → l !! j = Some t → spare_clear_of s t.

(** What an iteration makes of the container at position [i], and of the
    arrays. *)
Definition materialized (spareCap : nat → nat → nat) (name : string)
    (kenv : list EnvVar) (i : nat) (h : Heap) (c : Container)
    : Heap * Container :=
  let c := if decide (ctr_Name c = "")
           then set_ctr_Name (Sprintf_s_d name i) c else c in
  let '(h, e) := appendEnv spareCap h (ctr_Env c) kenv in
  (h, set_ctr_Env e c).

(** What a loop makes of the containers [rest], the first of them at
    position [i], from the [k]-th map traversal on. *)
Fixpoint materializeFrom (spareCap : nat → nat → nat) (name : string)
    (kenv : nat → list EnvVar) (k i : nat) (h : Heap) (rest : list Container)
    : list Container * Heap :=
  match rest with
  | [] => ([], h)
  | c :: rest =>
      let '(h, c') := materialized spareCap name (kenv k) i h c in
      let '(cs, h) := materializeFrom spareCap name kenv (S k) (S i) h rest in
      (c' :: cs, h)
  end.

(** The appends of the loops alone, slice after slice. *)
Fixpoint appendAll (spareCap : nat → nat → nat) (kenv : nat → list EnvVar)
    (k : nat) (h : Heap) (l : list EnvSlice) : list EnvSlice * Heap :=
  match l with
  | [] => ([], h)
  | s :: l =>
      let '(h, e) := appendEnv spareCap h s (kenv k) in
      let '(es, h) := appendAll spareCap kenv (S k) h l in
      (e :: es, h)
  end.

(** The names that the containers of [out] received by default: those at the
    positions where the container of [src] has no name. *)
Definition defaulted_names (src out : list Container) : list string :=
  (λ p, ctr_Name p.2) <$> filter (λ p, ctr_Name p.1 = "") (zip src out).

(** The default names of a pod, init-containers and containers together. *)
Definition pod_default_names (template pod : PodSpec) : list string :=
  defaulted_names (ps_InitContainers template) (ps_InitContainers pod) ++
  defaulted_names (ps_Containers template) (ps_Containers pod).

(** The spare capacity of [q] is none of the [n] cells of array [a] from
    position [lo] on. *)
Definition spare_misses (q : EnvSlice) (a lo n : nat) : Prop :=
  a ≠ sl_arr q ∨ (sl_cap q ≤ sl_len q)%nat ∨
  (lo + n ≤ sl_off q + sl_len q)%nat ∨ (sl_off q + sl_cap q ≤ lo)%nat.

(** The slice [o] was made by an append to [q]: it is empty, or it views an
    array allocated since [h0], or it views the cells of [q] and some of its
    spare capacity. *)
Definition made_from (h0 h : Heap) (q o : EnvSlice) : Prop :=
  sl_len o = 0%nat ∨
  ((sl_arr o < length h)%nat ∧
   ((length h0 ≤ sl_arr o)%nat ∨
    (sl_arr o = sl_arr q ∧ sl_off o = sl_off q ∧
     (sl_len o ≤ sl_cap q)%nat))).

(** ** Sample data, used to run the definitions *)

(** One interpretation of the constants of package kube. *)
Definition sample_consts : KubeConsts :=
  {| KubernetesAgent := "kubernetes";
     DefaultClusterAlias := "default";
     CreatedByProw := "created-by-prow";
     ProwJobTypeLabel := "prow.k8s.io/type";
     ProwJobAnnotation := "prow.k8s.io/job";
     ProwJobType_string := λ t,
       match t with
       | PresubmitJob => "presubmit" | PostsubmitJob => "postsubmit"
       | PeriodicJob => "periodic" | BatchJob => "batch"
       end |}.

Definition sample_refs : Refs :=
  {| refs_Org := "kubernetes"; refs_Repo := "test-infra";
     refs_BaseRef := "master";
     refs_Pulls := [ {| pull_Number := 7; pull_Author := "dev";
                        pull_SHA := "abc" |} ] |}.

Definition sample_container (name : string) (env : EnvSlice) : Container :=
  {| ctr_Name := name; ctr_Image := "alpine"; ctr_Command := ["make"];
     ctr_Args := ["test"]; ctr_Env := env |}.

(** The backing arrays of the sample pod template: one array, holding the
    one environment variable of its first container. *)
Definition sample_heap : Heap :=
  [ [ {| env_Name := "HOME"; env_Value := "/root" |} ] ].

Definition sample_PodSpec : PodSpec :=
  {| ps_InitContainers := [ sample_container "" nil_EnvSlice ];
     ps_Containers :=
       [ sample_container ""
           {| sl_arr := 0; sl_off := 0; sl_len := 1; sl_cap := 1 |};
         sample_container "x" nil_EnvSlice ];
     ps_RestartPolicy := "Always" |}.

Definition sample_presubmit_leaf (name agent : string) (spec : option PodSpec)
    : Presubmit :=
  {| pre_Name := name; pre_SkipReport := false; pre_Context := "ctx";
     pre_RerunCommand := "/test all"; pre_MaxConcurrency := 2;
     pre_Agent := agent; pre_Spec := spec; pre_Cluster := "";
     pre_RunAfterSuccess := [] |}.

(** A presubmit with two continuations, the first with one of its own. *)
Definition sample_presubmit : Presubmit :=
  {| pre_Name := "root"; pre_SkipReport := true; pre_Context := "ctx";
     pre_RerunCommand := "/test root"; pre_MaxConcurrency := 1;
     pre_Agent := "kubernetes"; pre_Spec := Some sample_PodSpec;
     pre_Cluster := "build";
     pre_RunAfterSuccess :=
       [ {| pre_Name := "a"; pre_SkipReport := false; pre_Context := "ctx-a";
            pre_RerunCommand := "/test a"; pre_MaxConcurrency := 0;
            pre_Agent := "jenkins"; pre_Spec := None; pre_Cluster := "";
            pre_RunAfterSuccess :=
              [ sample_presubmit_leaf "a1" "kubernetes" (Some sample_PodSpec) ]
         |};
         sample_presubmit_leaf "b" "jenkins" None ] |}.

Definition sample_postsubmit : Postsubmit :=
  {| post_Name := "post"; post_MaxConcurrency := 3;
     post_Agent := "kubernetes"; post_Spec := Some sample_PodSpec;
     post_Cluster := "";
     post_RunAfterSuccess :=
       [ {| post_Name := "post-a"; post_MaxConcurrency := 0;
            post_Agent := "jenkins"; post_Spec := None; post_Cluster := "";
            post_RunAfterSuccess := [] |} ] |}.

Definition sample_periodic : Periodic :=
  {| per_Name := "nightly"; per_Agent := "jenkins"; per_Spec := None;
     per_Cluster := "ignored";
     per_RunAfterSuccess :=
       [ {| per_Name := "nightly-a"; per_Agent := "kubernetes";
            per_Spec := Some sample_PodSpec; per_Cluster := "";
            per_RunAfterSuccess := [] |} ] |}.

(** A template for the Kubernetes agent without a pod template. *)
Definition presubmit_without_pod_template : Presubmit :=
  sample_presubmit_leaf "broken" "kubernetes" None.

Definition sample_spec (t : ProwJobType) (job : string) : ProwJobSpec :=
  {| pjs_Type := t; pjs_Agent := "kubernetes"; pjs_Cluster := "default";
     pjs_Job := job; pjs_Refs := sample_refs; pjs_Report := true;
     pjs_Context := "ctx"; pjs_RerunCommand := "/test all";
     pjs_MaxConcurrency := 0; pjs_PodSpec := sample_PodSpec;
     pjs_RunAfterSuccess := [] |}.

Definition sample_job (id : string) (t : ProwJobType) (job : string)
    (start : Time) (state : ProwJobState) : ProwJob :=
  {| pj_APIVersion := "prow.k8s.io/v1"; pj_Kind := "ProwJob";
     pj_ObjectMeta :=
       {| om_Name := id; om_Labels := {[ "owner" := "sig-testing" ]};
          om_Annotations := ∅ |};
     pj_Spec := sample_spec t job;
     pj_Status := {| st_StartTime := start; st_State := state |} |}.

(** A world whose identifier generator and clock are counters. *)
Definition sample_uuid (w : nat) : string * nat :=
  ("uuid-" +:+ pretty w, S w).
Definition sample_now (w : nat) : Time * nat := (1000 + Z.of_nat w, S w).

(** The records of the partitioning example of the specification. *)
Definition sample_states : list ProwJob :=
  [ sample_job "j1" PresubmitJob "foo" 10 PendingState;
    sample_job "j2" PresubmitJob "foo" 20 TriggeredState;
    sample_job "j3" PresubmitJob "foo" 30 SuccessState;
    sample_job "j4" PresubmitJob "foo" 40 PendingState ].

(** The records of the selection example of the specification: two
    presubmit runs of foo and a postsubmit run of bar. *)
Definition sample_runs : list ProwJob :=
  [ sample_job "r1" PresubmitJob "foo" 100 SuccessState;
    sample_job "r2" PresubmitJob "foo" 200 PendingState;
    sample_job "r3" PostsubmitJob "bar" 300 SuccessState ].

(** A record whose start time was never set. *)
Definition unstarted_job : ProwJob :=
  sample_job "u1" PresubmitJob "foo" zero_Time TriggeredState.

(** A sample environment deriver: it succeeds on every record but the one
    whose build identifier is empty. *)
Definition sample_NewJobSpec (spec : ProwJobSpec) (buildID name : string)
    : ProwJobSpec * string * string := (spec, buildID, name).

Definition sample_EnvForSpec (js : ProwJobSpec * string * string)
    : gmap string string * option string :=
  let '(spec, buildID, name) := js in
  if decide (buildID = "") then (∅, Some "no build id")
  else ({[ "BUILD_ID" := buildID; "JOB_NAME" := pjs_Job spec ]}, None).

(** The traversal that always follows the map's own enumeration. *)
Definition sample_rangeOrder (k : nat) (m : gmap string string)
    : list (string * string) := map_to_list m.

(** A record whose pod template is [sample_PodSpec]: one unnamed
    init-container, an unnamed container and a container named x. *)
Definition sample_record : ProwJob :=
  sample_job "pj" PresubmitJob "foo" 100 TriggeredState.

(** A run time that gives a new array as much spare capacity as the length
    needed. *)
Definition sample_spareCap (cap need : nat) : nat := need.

Definition sample_ProwJobToPod (pj : ProwJob) (buildID : string)
    : option (option Pod * option string * Heap) :=
  ProwJobToPod sample_consts sample_NewJobSpec sample_EnvForSpec
    sample_rangeOrder sample_spareCap pj buildID sample_heap.

Definition zero_Pod : Pod :=
  {| pod_ObjectMeta :=
       {| om_Name := ""; om_Labels := ∅; om_Annotations := ∅ |};
     pod_Spec := zero_PodSpec |}.

(** The pod of the sample record (the zero pod if there is none), and the
    arrays after the call. *)
Definition sample_pod : Pod :=
  match sample_ProwJobToPod sample_record "b1" with
  | Some (Some pod, _, _) => pod
  | _ => zero_Pod
  end.

Definition sample_pod_heap : Heap :=
  match sample_ProwJobToPod sample_record "b1" with
  | Some (_, _, h) => h
  | None => []
  end.

(** Two containers whose environments are slices of one array of capacity
    8, of lengths 1 and 2. *)
Definition shared_heap : Heap :=
  [ [ {| env_Name := "A"; env_Value := "1" |};
      {| env_Name := "B"; env_Value := "2" |} ] ++ replicate 6 zero_EnvVar ].

Definition shared_PodSpec : PodSpec :=
  {| ps_InitContainers := [];
     ps_Containers :=
       [ sample_container "c0"
           {| sl_arr := 0; sl_off := 0; sl_len := 1; sl_cap := 8 |};
         sample_container "c1"
           {| sl_arr := 0; sl_off := 0; sl_len := 2; sl_cap := 8 |} ];
     ps_RestartPolicy := "" |}.

Definition shared_record : ProwJob :=
  {| pj_APIVersion := "prow.k8s.io/v1"; pj_Kind := "ProwJob";
     pj_ObjectMeta :=
       {| om_Name := "pj"; om_Labels := ∅; om_Annotations := ∅ |};
     pj_Spec :=
       {| pjs_Type := PresubmitJob; pjs_Agent := "kubernetes";
          pjs_Cluster := "default"; pjs_Job := "foo"; pjs_Refs := sample_refs;
          pjs_Report := true; pjs_Context := ""; pjs_RerunCommand := "";
          pjs_MaxConcurrency := 0; pjs_PodSpec := shared_PodSpec;
          pjs_RunAfterSuccess := [] |};
     pj_Status := {| st_StartTime := 100; st_State := TriggeredState |} |}.

(** A deriver whose environment has the single entry K = v. *)
Definition single_EnvForSpec (js : ProwJobSpec * string * string)
    : gmap string string * option string := ({[ "K" := "v" ]}, None).

(** ** ProwJobFields *)

(** A value of a [logrus.Fields] entry: the function stores strings, a job
    type and a pull-request number. *)
Inductive FieldValue :=
  | FieldString (s : string)
  | FieldJobType (t : ProwJobType)
  | FieldInt (n : Z).

(** The constants of package github that the code names. Their values are
    declared outside the sources, so they are parameters of the model. *)
Record GithubConsts := {
  EventGUID : string;
  PrLogField : string;
  RepoLogField : string;
  OrgLogField : string
}.

(** ProwJobFields extracts logrus fields from a prowjob useful for logging.
    The argument is a pointer: [None] is nil, and reading a field of nil
    panics. Indexing the labels at a missing key gives the empty string. *)
Definition ProwJobFields (G : GithubConsts) (pj : option ProwJob)
    : option (gmap string FieldValue) :=
  pj ← pj;
  let fields : gmap string FieldValue := ∅ in
  let fields := <["name" := FieldString (om_Name (pj_ObjectMeta pj))]> fields in
  let fields := <["job" := FieldString (pjs_Job (pj_Spec pj))]> fields in
  let fields := <["type" := FieldJobType (pjs_Type (pj_Spec pj))]> fields in
  let guid := default "" (om_Labels (pj_ObjectMeta pj) !! EventGUID G) in
  let fields :=
    if decide (0 < String.length guid)%nat
    then <[EventGUID G := FieldString guid]> fields
    else fields in
  if decide (length (refs_Pulls (pjs_Refs (pj_Spec pj))) = 1%nat) then
    pull ← refs_Pulls (pjs_Refs (pj_Spec pj)) !! 0%nat;
    let fields := <[PrLogField G := FieldInt (pull_Number pull)]> fields in
    let fields :=
      <[RepoLogField G := FieldString (refs_Repo (pjs_Refs (pj_Spec pj)))]>
        fields in
    let fields :=
      <[OrgLogField G := FieldString (refs_Org (pjs_Refs (pj_Spec pj)))]>
        fields in
    Some fields
  else Some fields.

(** The keys are pairwise distinct, and distinct from the three literal keys
    of the function. *)
Definition distinct_keys (G : GithubConsts) : Prop :=
  NoDup ["name"; "job"; "type"; EventGUID G; PrLogField G; RepoLogField G;
         OrgLogField G].

(** ** Receiving from a channel

    The consumers of PartitionActive receive from the channels it returns.
    [x, ok := <-c] with no sender: the head of the buffer when there is one;
    on an empty buffer, the zero value and [ok = false] when the channel is
    closed, and a receive that blocks for ever when it is open. *)
Definition recv (c : chan) : option (option ProwJob * chan) :=
  match ch_buf c with
  | x :: buf =>
      Some (Some x, {| ch_buf := buf; ch_cap := ch_cap c;
                       ch_closed := ch_closed c |})
  | [] => if ch_closed c then Some (None, c) else None
  end.

(** [for pj := range c { seen = append(seen, pj) }], within [fuel]
    receives. *)
Fixpoint rangeChan (fuel : nat) (c : chan) (seen : list ProwJob)
    : option (list ProwJob * chan) :=
  match fuel with
  | O => None
  | S fuel =>
      match recv c with
      | None => None
      | Some (None, c) => Some (seen, c)
      | Some (Some pj, c) => rangeChan fuel c (seen ++ [pj])
      end
  end.

(** ** Further notions used to state properties *)

(** A template and all its descendants, root first, in the order of
    [all_specs]. *)
Fixpoint all_presubmits (p : Presubmit) : list Presubmit :=
  p :: concat (map all_presubmits (pre_RunAfterSuccess p)).

Fixpoint all_postsubmits (p : Postsubmit) : list Postsubmit :=
  p :: concat (map all_postsubmits (post_RunAfterSuccess p)).

Fixpoint all_periodics (p : Periodic) : list Periodic :=
  p :: concat (map all_periodics (per_RunAfterSuccess p)).

(** What the spec built by each builder for one template of the chain
    holds. *)
Definition presubmit_node (K : KubeConsts) (refs : Refs) (t : Presubmit)
    (s : ProwJobSpec) : Prop :=
  pjs_Type s = PresubmitJob ∧ pjs_Job s = pre_Name t ∧ pjs_Refs s = refs ∧
  pjs_Report s = negb (pre_SkipReport t) ∧
  pjs_Context s = pre_Context t ∧
  pjs_RerunCommand s = pre_RerunCommand t ∧
  pjs_MaxConcurrency s = pre_MaxConcurrency t ∧
  agent_fields_ok K (pre_Agent t) (pre_Spec t) (pre_Cluster t) s ∧
  length (pjs_RunAfterSuccess s) = length (pre_RunAfterSuccess t).

Definition postsubmit_node (K : KubeConsts) (refs : Refs) (t : Postsubmit)
    (s : ProwJobSpec) : Prop :=
  pjs_Type s = PostsubmitJob ∧ pjs_Job s = post_Name t ∧ pjs_Refs s = refs ∧
  pjs_Report s = false ∧ pjs_Context s = "" ∧ pjs_RerunCommand s = "" ∧
  pjs_MaxConcurrency s = post_MaxConcurrency t ∧
  agent_fields_ok K (post_Agent t) (post_Spec t) (post_Cluster t) s ∧
  length (pjs_RunAfterSuccess s) = length (post_RunAfterSuccess t).

Definition periodic_node (K : KubeConsts) (t : Periodic) (s : ProwJobSpec)
    : Prop :=
  pjs_Type s = PeriodicJob ∧ pjs_Job s = per_Name t ∧
  pjs_Refs s = zero_Refs ∧
  pjs_Report s = false ∧ pjs_Context s = "" ∧ pjs_RerunCommand s = "" ∧
  pjs_MaxConcurrency s = 0 ∧
  agent_fields_ok K (per_Agent t) (per_Spec t) (per_Cluster t) s ∧
  length (pjs_RunAfterSuccess s) = length (per_RunAfterSuccess t).

Definition batch_node (K : KubeConsts) (refs : Refs) (t : Presubmit)
    (s : ProwJobSpec) : Prop :=
  pjs_Type s = BatchJob ∧ pjs_Job s = pre_Name t ∧ pjs_Refs s = refs ∧
  pjs_Report s = false ∧ pjs_Context s = pre_Context t ∧
  pjs_RerunCommand s = "" ∧ pjs_MaxConcurrency s = 0 ∧
  agent_fields_ok K (pre_Agent t) (pre_Spec t) (pre_Cluster t) s ∧
  length (pjs_RunAfterSuccess s) = length (pre_RunAfterSuccess t).

(** The records that are still in flight. *)
Definition inFlight (pj : ProwJob) : Prop :=
  hasState PendingState pj ∨ hasState TriggeredState pj.

Global Instance inFlight_dec pj : Decision (inFlight pj).
Proof. unfold inFlight. apply _. Defined.

(** ** Further sample data *)

Definition sample_github : GithubConsts :=
  {| EventGUID := "event-GUID"; PrLogField := "pr"; RepoLogField := "repo";
     OrgLogField := "org" |}.

(** A record carrying the identifier of the event that triggered it. *)
Definition sample_event_record : ProwJob :=
  {| pj_APIVersion := "prow.k8s.io/v1"; pj_Kind := "ProwJob";
     pj_ObjectMeta :=
       {| om_Name := "pj"; om_Labels := {[ "event-GUID" := "e-42" ]};
          om_Annotations := ∅ |};
     pj_Spec := sample_spec PresubmitJob "foo";
     pj_Status := {| st_StartTime := 100; st_State := TriggeredState |} |}.

(** The spec built from the sample presubmit, the record created from it in
    the sample world, and the pod of that record (zero values if the code
    gives none). *)
Definition sample_built_spec : ProwJobSpec :=
  default (sample_spec PresubmitJob "")
          (PresubmitSpec sample_consts sample_presubmit sample_refs).

Definition sample_created_record : ProwJob :=
  (NewProwJob sample_uuid sample_now sample_built_spec
     {[ "owner" := "sig-testing" ]} 3%nat).1.

Definition sample_created_pod : Pod :=
  match sample_ProwJobToPod sample_created_record "b7" with
  | Some (Some pod, _, _) => pod
  | _ => zero_Pod
  end.

Definition sample_created_heap : Heap :=
  match sample_ProwJobToPod sample_created_record "b7" with
  | Some (_, _, h) => h
  | None => []
  end.

(** The fields of the sample record (no field if the code panics). *)
Definition sample_fields : gmap string FieldValue :=
  default ∅ (ProwJobFields sample_github (Some sample_event_record)).

(** * Properties *)

(** ** Spec builders *)

Lemma Presubmit_nested_ind (P : Presubmit → Prop) :
  (∀ p, Forall P (pre_RunAfterSuccess p) → P p) → ∀ p, P p.
Proof.
  intros step. fix IH 1. intros p. apply step.
  destruct p as [? ? ? ? ? ? ? ? l]; simpl.
  induction l as [|c l IHl]; constructor; [apply IH | exact IHl].
Qed.

Lemma Postsubmit_nested_ind (P : Postsubmit → Prop) :
  (∀ p, Forall P (post_RunAfterSuccess p) → P p) → ∀ p, P p.
Proof.
  intros step. fix IH 1. intros p. apply step.
  destruct p as [? ? ? ? ? l]; simpl.
  induction l as [|c l IHl]; constructor; [apply IH | exact IHl].
Qed.

Lemma Periodic_nested_ind (P : Periodic → Prop) :
  (∀ p, Forall P (per_RunAfterSuccess p) → P p) → ∀ p, P p.
Proof.
  intros step. fix IH 1. intros p. apply step.
  destruct p as [? ? ? ? l]; simpl.
  induction l as [|c l IHl]; constructor; [apply IH | exact IHl].
Qed.

Lemma ProwJobSpec_nested_ind (P : ProwJobSpec → Prop) :
  (∀ s, Forall P (pjs_RunAfterSuccess s) → P s) → ∀ s, P s.
Proof.
  intros step. fix IH 1. intros s. apply step.
  destruct s as [? ? ? ? ? ? ? ? ? ? l]; simpl.
  induction l as [|c l IHl]; constructor; [apply IH | exact IHl].
Qed.

(** The loop over [RunAfterSuccess] appends the specs of the children in
    order, and panics as soon as one of them does. *)
Section RangeChildren.
Context {T : Type} (build : T → option ProwJobSpec).

Lemma rangeChildren_mapM l pjs :
  rangeChildren build l pjs =
    ks ← mapM build l;
    Some (set_pjs_RunAfterSuccess (pjs_RunAfterSuccess pjs ++ ks) pjs).
Proof.
  revert pjs. induction l as [|c l IH]; intros pjs; simpl.
  - rewrite app_nil_r. by destruct pjs.
  - destruct (build c) as [next|]; simpl; [|done].
    rewrite IH. destruct (mapM build l) as [ks|]; simpl; [|done].
    by rewrite <- app_assoc.
Qed.
End RangeChildren.

Lemma PresubmitSpec_unfold K p refs :
  PresubmitSpec K p refs =
    agentFields K (pre_Spec p) (pre_Cluster p)
        (set_pjs_Agent (pre_Agent p)
           {| pjs_Type := PresubmitJob; pjs_Job := pre_Name p;
              pjs_Refs := refs; pjs_Report := negb (pre_SkipReport p);
              pjs_Context := pre_Context p;
              pjs_RerunCommand := pre_RerunCommand p;
              pjs_MaxConcurrency := pre_MaxConcurrency p;
              pjs_Agent := ""; pjs_Cluster := ""; pjs_PodSpec := zero_PodSpec;
              pjs_RunAfterSuccess := [] |})
    ≫= rangeChildren (λ c, PresubmitSpec K c refs) (pre_RunAfterSuccess p).
Proof. by destruct p. Qed.

Lemma PostsubmitSpec_unfold K p refs :
  PostsubmitSpec K p refs =
    agentFields K (post_Spec p) (post_Cluster p)
      (set_pjs_Agent (post_Agent p)
         {| pjs_Type := PostsubmitJob; pjs_Job := post_Name p;
            pjs_Refs := refs; pjs_MaxConcurrency := post_MaxConcurrency p;
            pjs_Report := false; pjs_Context := ""; pjs_RerunCommand := "";
            pjs_Agent := ""; pjs_Cluster := ""; pjs_PodSpec := zero_PodSpec;
            pjs_RunAfterSuccess := [] |})
    ≫= rangeChildren (λ c, PostsubmitSpec K c refs) (post_RunAfterSuccess p).
Proof. by destruct p. Qed.

Lemma PeriodicSpec_unfold K p :
  PeriodicSpec K p =
    agentFields K (per_Spec p) (per_Cluster p)
      (set_pjs_Agent (per_Agent p)
         {| pjs_Type := PeriodicJob; pjs_Job := per_Name p;
            pjs_Refs := zero_Refs; pjs_MaxConcurrency := 0;
            pjs_Report := false; pjs_Context := ""; pjs_RerunCommand := "";
            pjs_Agent := ""; pjs_Cluster := ""; pjs_PodSpec := zero_PodSpec;
            pjs_RunAfterSuccess := [] |})
    ≫= rangeChildren (PeriodicSpec K) (per_RunAfterSuccess p).
Proof. by destruct p. Qed.

Lemma BatchSpec_unfold K p refs :
  BatchSpec K p refs =
    agentFields K (pre_Spec p) (pre_Cluster p)
      (set_pjs_Agent (pre_Agent p)
         {| pjs_Type := BatchJob; pjs_Job := pre_Name p; pjs_Refs := refs;
            pjs_Context := pre_Context p; pjs_MaxConcurrency := 0;
            pjs_Report := false; pjs_RerunCommand := "";
            pjs_Agent := ""; pjs_Cluster := ""; pjs_PodSpec := zero_PodSpec;
            pjs_RunAfterSuccess := [] |})
    ≫= rangeChildren (λ c, BatchSpec K c refs) (pre_RunAfterSuccess p).
Proof. by destruct p. Qed.

(** The agent-conditional block: when it returns, and what it changes. *)
Lemma agentFields_Some K spec cluster pjs :
  has_pod_template K (pjs_Agent pjs) spec = true →
  is_Some (agentFields K spec cluster pjs).
Proof.
  unfold has_pod_template, agentFields. case_decide; [|by eauto].
  intros [podSpec ->]%bool_decide_eq_true; simpl. case_decide; eauto.
Qed.

Lemma agentFields_None K spec cluster pjs :
  has_pod_template K (pjs_Agent pjs) spec = false →
  agentFields K spec cluster pjs = None.
Proof.
  unfold has_pod_template, agentFields. case_decide; [|done].
  intros Hn%bool_decide_eq_false. destruct spec; [|done].
  destruct Hn; eauto.
Qed.

Lemma agentFields_keeps K spec cluster pjs pjs' :
  agentFields K spec cluster pjs = Some pjs' →
  pjs_Type pjs' = pjs_Type pjs ∧ pjs_Job pjs' = pjs_Job pjs ∧
  pjs_Refs pjs' = pjs_Refs pjs ∧ pjs_Agent pjs' = pjs_Agent pjs ∧
  pjs_RunAfterSuccess pjs' = pjs_RunAfterSuccess pjs.
Proof.
  unfold agentFields. case_decide; [|by intros [= <-]].
  destruct spec as [podSpec|]; simpl; [|done].
  case_decide; by intros [= <-].
Qed.

Lemma agentFields_sets K spec cluster pjs pjs' :
  pjs_PodSpec pjs = zero_PodSpec → pjs_Cluster pjs = "" →
  agentFields K spec cluster pjs = Some pjs' →
  agent_fields_ok K (pjs_Agent pjs) spec cluster pjs'.
Proof.
  intros Hp Hc. unfold agentFields, agent_fields_ok.
  case_decide as Ha; [|by intros [= <-]].
  destruct spec as [podSpec|]; simpl; [|done].
  repeat case_decide; by intros [= <-].
Qed.

(** What follows from the shape shared by the four builders. *)
Section Builder.
Context (K : KubeConsts) {T : Type}.
Context (tname tagent tcluster : T → string).
Context (tspec : T → option PodSpec) (kids : T → list T).
Context (base : T → ProwJobSpec) (build : T → option ProwJobSpec).
Context (ok : T → bool) (names : T → NameTree).

Hypothesis T_nested_ind :
  ∀ P : T → Prop, (∀ p, Forall P (kids p) → P p) → ∀ p, P p.
Hypothesis build_unfold : ∀ p,
  build p =
    agentFields K (tspec p) (tcluster p) (set_pjs_Agent (tagent p) (base p))
    ≫= rangeChildren build (kids p).
Hypothesis base_Job : ∀ p, pjs_Job (base p) = tname p.
Hypothesis base_RunAfterSuccess : ∀ p, pjs_RunAfterSuccess (base p) = [].
Hypothesis base_PodSpec : ∀ p, pjs_PodSpec (base p) = zero_PodSpec.
Hypothesis base_Cluster : ∀ p, pjs_Cluster (base p) = "".
Hypothesis ok_unfold : ∀ p,
  ok p = has_pod_template K (tagent p) (tspec p) && forallb ok (kids p).
Hypothesis names_unfold : ∀ p,
  names p = NameNode (tname p) (map names (kids p)).

Lemma build_inv p pjs :
  build p = Some pjs →
  ∃ pjs0,
    agentFields K (tspec p) (tcluster p) (set_pjs_Agent (tagent p) (base p))
      = Some pjs0 ∧
    Forall2 (λ c s, build c = Some s) (kids p) (pjs_RunAfterSuccess pjs) ∧
    pjs = set_pjs_RunAfterSuccess (pjs_RunAfterSuccess pjs) pjs0.
Proof.
  rewrite build_unfold.
  destruct (agentFields _ _ _ _) as [pjs0|] eqn:Ha; simpl; [|done].
  rewrite rangeChildren_mapM.
  destruct (mapM build (kids p)) as [ks|] eqn:Hks; simpl; [|done].
  intros [= <-]. exists pjs0. apply agentFields_keeps in Ha as (_&_&_&_&Hr).
  rewrite Hr; simpl. rewrite base_RunAfterSuccess; simpl.
  split; [done|]. split; [by apply mapM_Some|done].
Qed.

Lemma build_is_Some p : ok p = true → is_Some (build p).
Proof.
  induction p as [p IH] using T_nested_ind.
  rewrite ok_unfold, andb_true_iff, forallb_forall.
  intros [Hpod Hkids]. rewrite build_unfold.
  destruct (agentFields_Some K (tspec p) (tcluster p)
              (set_pjs_Agent (tagent p) (base p))) as [pjs0 ->]; [done|].
  simpl. rewrite rangeChildren_mapM.
  assert (is_Some (mapM build (kids p))) as [ks ->]; [|by eauto].
  apply mapM_is_Some, Forall_forall. intros c Hc.
  rewrite Forall_forall in IH. apply IH; [done|].
  by apply Hkids, list_elem_of_In.
Qed.

Lemma build_None p : ok p = false → build p = None.
Proof.
  induction p as [p IH] using T_nested_ind.
  rewrite ok_unfold, andb_false_iff. rewrite build_unfold.
  destruct (has_pod_template K (tagent p) (tspec p)) eqn:Hpod.
  - intros [?|Hkids]; [done|].
    destruct (agentFields _ _ _ _) as [pjs0|]; simpl; [|done].
    rewrite rangeChildren_mapM.
    destruct (mapM build (kids p)) as [ks|] eqn:Hks; simpl; [|done].
    apply mapM_Some in Hks. exfalso.
    assert (forallb ok (kids p) = true); [|congruence].
    apply forallb_forall. intros c Hc%list_elem_of_In.
    rewrite Forall_forall in IH.
    destruct (ok c) eqn:Hokc; [done|].
    apply IH in Hokc; [|done].
    apply list_elem_of_lookup in Hc as [i Hi].
    destruct (Forall2_lookup_l _ _ _ _ _ Hks Hi) as (s & _ & Hs).
    congruence.
  - intros _. by rewrite agentFields_None.
Qed.

Lemma build_names p pjs : build p = Some pjs → spec_names pjs = names p.
Proof.
  revert pjs. induction p as [p IH] using T_nested_ind.
  intros pjs (pjs0 & Ha & Hks & Heq)%build_inv.
  apply agentFields_keeps in Ha as (_ & Hjob & _).
  rewrite names_unfold.
  destruct pjs as [? ? ? job ? ? ? ? ? ? ks]; simpl in *.
  injection Heq as _ _ _ -> _ _ _ _ _ _. rewrite Hjob; simpl.
  rewrite base_Job. f_equal.
  clear - IH Hks. induction Hks as [|c s cs ks Hc Hks IHks]; [done|].
  inversion_clear IH as [|? ? IHc IHcs]. simpl. f_equal; eauto.
Qed.

Lemma build_agent_fields p pjs :
  build p = Some pjs →
  agent_fields_ok K (tagent p) (tspec p) (tcluster p) pjs.
Proof.
  intros (pjs0 & Ha & _ & ->)%build_inv.
  apply agentFields_sets in Ha; simpl;
    [|by rewrite ?base_PodSpec, ?base_Cluster..].
  exact Ha.
Qed.

Lemma build_refs (r : Refs) p pjs :
  (∀ p, pjs_Refs (base p) = r) →
  build p = Some pjs → Forall (λ s, pjs_Refs s = r) (all_specs pjs).
Proof.
  intros Hbase. revert pjs. induction p as [p IH] using T_nested_ind.
  intros pjs (pjs0 & Ha & Hks & Heq)%build_inv.
  apply agentFields_keeps in Ha as (_ & _ & Hrefs & _).
  destruct pjs as [? ? ? ? refs ? ? ? ? ? ks]; simpl in *.
  injection Heq as _ _ _ _ -> _ _ _ _ _. constructor.
  { simpl. by rewrite Hrefs. }
  apply Forall_concat, Forall_fmap.
  clear - IH Hks. induction Hks as [|c s cs ks Hc Hks IHks]; [done|].
  inversion_clear IH as [|? ? IHc IHcs]. constructor; eauto.
Qed.

(** On a well-formed template the builder returns, and the result has the
    names, the refs and the agent-conditional fields of the template. *)
Lemma build_correct (r : Refs) p :
  (∀ p, pjs_Refs (base p) = r) →
  ok p = true →
  ∃ pjs, build p = Some pjs ∧
         spec_names pjs = names p ∧
         Forall (λ s, pjs_Refs s = r) (all_specs pjs) ∧
         agent_fields_ok K (tagent p) (tspec p) (tcluster p) pjs.
Proof.
  intros Hbase [pjs Hpjs]%build_is_Some. exists pjs.
  split; [done|]. split; [by apply build_names|].
  split; [by eapply build_refs|by apply build_agent_fields].
Qed.
End Builder.

(** Each builder has the shared shape. *)
Ltac builder_shape ind unf :=
  first [ exact ind | intros; apply unf | by intros [] ].

Lemma PresubmitSpec_correct K p refs :
  presubmit_ok K p = true →
  ∃ pjs, PresubmitSpec K p refs = Some pjs ∧
         spec_names pjs = presubmit_names p ∧
         Forall (λ s, pjs_Refs s = refs) (all_specs pjs) ∧
         agent_fields_ok K (pre_Agent p) (pre_Spec p) (pre_Cluster p) pjs.
Proof.
  intros Hok.
  eapply (build_correct K pre_Name pre_Agent pre_Cluster pre_Spec
            pre_RunAfterSuccess _ (λ c, PresubmitSpec K c refs)
            (presubmit_ok K) presubmit_names);
    [builder_shape Presubmit_nested_ind PresubmitSpec_unfold..|done].
Qed.

Lemma PostsubmitSpec_correct K p refs :
  postsubmit_ok K p = true →
  ∃ pjs, PostsubmitSpec K p refs = Some pjs ∧
         spec_names pjs = postsubmit_names p ∧
         Forall (λ s, pjs_Refs s = refs) (all_specs pjs) ∧
         agent_fields_ok K (post_Agent p) (post_Spec p) (post_Cluster p) pjs.
Proof.
  intros Hok.
  eapply (build_correct K post_Name post_Agent post_Cluster post_Spec
            post_RunAfterSuccess _ (λ c, PostsubmitSpec K c refs)
            (postsubmit_ok K) postsubmit_names);
    [builder_shape Postsubmit_nested_ind PostsubmitSpec_unfold..|done].
Qed.

Lemma PeriodicSpec_correct K p :
  periodic_ok K p = true →
  ∃ pjs, PeriodicSpec K p = Some pjs ∧
         spec_names pjs = periodic_names p ∧
         Forall (λ s, pjs_Refs s = zero_Refs) (all_specs pjs) ∧
         agent_fields_ok K (per_Agent p) (per_Spec p) (per_Cluster p) pjs.
Proof.
  intros Hok.
  eapply (build_correct K per_Name per_Agent per_Cluster per_Spec
            per_RunAfterSuccess _ (PeriodicSpec K)
            (periodic_ok K) periodic_names);
    [builder_shape Periodic_nested_ind PeriodicSpec_unfold..|done].
Qed.

Lemma BatchSpec_correct K p refs :
  presubmit_ok K p = true →
  ∃ pjs, BatchSpec K p refs = Some pjs ∧
         spec_names pjs = presubmit_names p ∧
         Forall (λ s, pjs_Refs s = refs) (all_specs pjs) ∧
         agent_fields_ok K (pre_Agent p) (pre_Spec p) (pre_Cluster p) pjs.
Proof.
  intros Hok.
  eapply (build_correct K pre_Name pre_Agent pre_Cluster pre_Spec
            pre_RunAfterSuccess _ (λ c, BatchSpec K c refs)
            (presubmit_ok K) presubmit_names);
    [builder_shape Presubmit_nested_ind BatchSpec_unfold..|done].
Qed.

(** A template on which the pod template is missing somewhere makes the
    builder panic. *)
Lemma PresubmitSpec_panics K p refs :
  presubmit_ok K p = false → PresubmitSpec K p refs = None.
Proof.
  eapply (build_None K pre_Agent pre_Cluster pre_Spec pre_RunAfterSuccess _
            (λ c, PresubmitSpec K c refs) (presubmit_ok K));
    builder_shape Presubmit_nested_ind PresubmitSpec_unfold.
Qed.

Lemma PostsubmitSpec_panics K p refs :
  postsubmit_ok K p = false → PostsubmitSpec K p refs = None.
Proof.
  eapply (build_None K post_Agent post_Cluster post_Spec post_RunAfterSuccess
            _ (λ c, PostsubmitSpec K c refs) (postsubmit_ok K));
    builder_shape Postsubmit_nested_ind PostsubmitSpec_unfold.
Qed.

Lemma PeriodicSpec_panics K p :
  periodic_ok K p = false → PeriodicSpec K p = None.
Proof.
  eapply (build_None K per_Agent per_Cluster per_Spec per_RunAfterSuccess _
            (PeriodicSpec K) (periodic_ok K));
    builder_shape Periodic_nested_ind PeriodicSpec_unfold.
Qed.

Lemma BatchSpec_panics K p refs :
  presubmit_ok K p = false → BatchSpec K p refs = None.
Proof.
  eapply (build_None K pre_Agent pre_Cluster pre_Spec pre_RunAfterSuccess _
            (λ c, BatchSpec K c refs) (presubmit_ok K));
    builder_shape Presubmit_nested_ind BatchSpec_unfold.
Qed.

Example PresubmitSpec_without_pod_template :
  PresubmitSpec sample_consts presubmit_without_pod_template sample_refs = None.
Proof. reflexivity. Qed.

Lemma mirrors_chain_of_names {T : Type} (tname : T → string)
    (tnames : T → NameTree) (kids : list T) (name : string) pjs :
  (∀ c, ∃ l, tnames c = NameNode (tname c) l) →
  spec_names pjs = NameNode name (map tnames kids) →
  mirrors_chain tname kids (NameNode name (map tnames kids)) pjs.
Proof.
  intros Hroot Hnames. split_and!; [| |done].
  - destruct pjs; simpl in *. injection Hnames as _ Hk.
    by rewrite <- (length_map spec_names), Hk, length_map.
  - intros i c Hc. destruct pjs as [? ? ? ? ? ? ? ? ? ? ks]; simpl in *.
    injection Hnames as _ Hk.
    assert (map tnames kids !! i = Some (tnames c)) as Hi.
    { change (map tnames kids) with (tnames <$> kids).
      by rewrite list_lookup_fmap, Hc. }
    rewrite <- Hk in Hi. change (map spec_names ks) with (spec_names <$> ks) in Hi.
    rewrite list_lookup_fmap in Hi.
    destruct (ks !! i) as [s|]; simpl in Hi; [|done].
    exists s. split; [done|]. injection Hi as Hi.
    destruct (Hroot c) as [l Hl]. rewrite Hl in Hi. destruct s; simpl in *.
    by injection Hi.
Qed.

(** C2. On every well-formed template (at every depth, a template for the
    Kubernetes agent has its pod template), each of PresubmitSpec,
    PostsubmitSpec, PeriodicSpec and BatchSpec returns a spec whose
    RunAfterSuccess sequence is as long as the template's, whose i-th element
    carries the name of the i-th child template, and whose tree of job names
    equals the template's tree of names at every depth. *)
Theorem RunAfterSuccess_mirrors_templates K (pre : Presubmit)
    (post : Postsubmit) (per : Periodic) (refs : Refs) :
  presubmit_ok K pre = true →
  postsubmit_ok K post = true →
  periodic_ok K per = true →
  (∃ pjs, PresubmitSpec K pre refs = Some pjs ∧
          mirrors_chain pre_Name (pre_RunAfterSuccess pre)
            (presubmit_names pre) pjs) ∧
  (∃ pjs, PostsubmitSpec K post refs = Some pjs ∧
          mirrors_chain post_Name (post_RunAfterSuccess post)
            (postsubmit_names post) pjs) ∧
  (∃ pjs, PeriodicSpec K per = Some pjs ∧
          mirrors_chain per_Name (per_RunAfterSuccess per)
            (periodic_names per) pjs) ∧
  (∃ pjs, BatchSpec K pre refs = Some pjs ∧
          mirrors_chain pre_Name (pre_RunAfterSuccess pre)
            (presubmit_names pre) pjs).
Proof.
  intros Hpre Hpost Hper.
  destruct (PresubmitSpec_correct K pre refs Hpre) as (s1 & E1 & N1 & _).
  destruct (PostsubmitSpec_correct K post refs Hpost) as (s2 & E2 & N2 & _).
  destruct (PeriodicSpec_correct K per Hper) as (s3 & E3 & N3 & _).
  destruct (BatchSpec_correct K pre refs Hpre) as (s4 & E4 & N4 & _).
  split_and!; eexists; (split; [eassumption|]).
  - destruct pre; apply mirrors_chain_of_names; [|done]. intros []; eauto.
  - destruct post; apply mirrors_chain_of_names; [|done]. intros []; eauto.
  - destruct per; apply mirrors_chain_of_names; [|done]. intros []; eauto.
  - destruct pre; apply mirrors_chain_of_names; [|done]. intros []; eauto.
Qed.

Lemma RunAfterSuccess_mirrors_templates_witness :
  (∃ pjs, PresubmitSpec sample_consts sample_presubmit sample_refs = Some pjs ∧
          mirrors_chain pre_Name (pre_RunAfterSuccess sample_presubmit)
            (presubmit_names sample_presubmit) pjs) ∧
  (∃ pjs, PostsubmitSpec sample_consts sample_postsubmit sample_refs
            = Some pjs ∧
          mirrors_chain post_Name (post_RunAfterSuccess sample_postsubmit)
            (postsubmit_names sample_postsubmit) pjs) ∧
  (∃ pjs, PeriodicSpec sample_consts sample_periodic = Some pjs ∧
          mirrors_chain per_Name (per_RunAfterSuccess sample_periodic)
            (periodic_names sample_periodic) pjs) ∧
  (∃ pjs, BatchSpec sample_consts sample_presubmit sample_refs = Some pjs ∧
          mirrors_chain pre_Name (pre_RunAfterSuccess sample_presubmit)
            (presubmit_names sample_presubmit) pjs).
Proof.
  apply (RunAfterSuccess_mirrors_templates sample_consts sample_presubmit
           sample_postsubmit sample_periodic sample_refs); reflexivity.
Defined.

(** The continuations built from the sample presubmit, by running the
    builder. *)
Example PresubmitSpec_sample_names :
  spec_names <$> PresubmitSpec sample_consts sample_presubmit sample_refs =
  Some (NameNode "root"
          [NameNode "a" [NameNode "a1" []]; NameNode "b" []]).
Proof. reflexivity. Qed.

Lemma elem_of_all_specs s pjs :
  s ∈ all_specs pjs ↔
  s = pjs ∨ ∃ k, k ∈ pjs_RunAfterSuccess pjs ∧ s ∈ all_specs k.
Proof.
  destruct pjs as [? ? ? ? ? ? ? ? ? ? ks]; simpl.
  rewrite elem_of_cons, list_elem_of_In, in_concat.
  apply or_iff_compat_l. split.
  - intros (l & (k & <- & Hk)%in_map_iff & Hs).
    exists k. by rewrite !list_elem_of_In.
  - intros (k & Hk & Hs). exists (all_specs k).
    rewrite in_map_iff, <- list_elem_of_In. split; [|done].
    exists k. by rewrite <- list_elem_of_In.
Qed.

(** C8. On every well-formed template, each spec builder returns a spec with
    the template's agent; when that agent is the Kubernetes one, the spec
    holds the template's pod template and its cluster is the template's
    cluster, or the default alias when the template names none; for any other
    agent the pod template and the cluster of the spec are left at their zero
    values. *)
Theorem agent_conditional_fields K (pre : Presubmit) (post : Postsubmit)
    (per : Periodic) (refs : Refs) :
  presubmit_ok K pre = true →
  postsubmit_ok K post = true →
  periodic_ok K per = true →
  (∃ pjs, PresubmitSpec K pre refs = Some pjs ∧
          agent_fields_ok K (pre_Agent pre) (pre_Spec pre) (pre_Cluster pre)
            pjs) ∧
  (∃ pjs, PostsubmitSpec K post refs = Some pjs ∧
          agent_fields_ok K (post_Agent post) (post_Spec post)
            (post_Cluster post) pjs) ∧
  (∃ pjs, PeriodicSpec K per = Some pjs ∧
          agent_fields_ok K (per_Agent per) (per_Spec per) (per_Cluster per)
            pjs) ∧
  (∃ pjs, BatchSpec K pre refs = Some pjs ∧
          agent_fields_ok K (pre_Agent pre) (pre_Spec pre) (pre_Cluster pre)
            pjs).
Proof.
  intros Hpre Hpost Hper.
  destruct (PresubmitSpec_correct K pre refs Hpre) as (s1 & E1 & _ & _ & A1).
  destruct (PostsubmitSpec_correct K post refs Hpost) as (s2 & E2 & _ & _ & A2).
  destruct (PeriodicSpec_correct K per Hper) as (s3 & E3 & _ & _ & A3).
  destruct (BatchSpec_correct K pre refs Hpre) as (s4 & E4 & _ & _ & A4).
  split_and!; eexists; (split; [eassumption|done]).
Qed.

Lemma agent_conditional_fields_witness :
  (∃ pjs, PresubmitSpec sample_consts sample_presubmit sample_refs = Some pjs ∧
          agent_fields_ok sample_consts "kubernetes" (Some sample_PodSpec)
            "build" pjs) ∧
  (∃ pjs, PostsubmitSpec sample_consts sample_postsubmit sample_refs
            = Some pjs ∧
          agent_fields_ok sample_consts "kubernetes" (Some sample_PodSpec)
            "" pjs) ∧
  (∃ pjs, PeriodicSpec sample_consts sample_periodic = Some pjs ∧
          agent_fields_ok sample_consts "jenkins" None "ignored" pjs) ∧
  (∃ pjs, BatchSpec sample_consts sample_presubmit sample_refs = Some pjs ∧
          agent_fields_ok sample_consts "kubernetes" (Some sample_PodSpec)
            "build" pjs).
Proof.
  apply (agent_conditional_fields sample_consts sample_presubmit
           sample_postsubmit sample_periodic sample_refs); reflexivity.
Defined.

Example PostsubmitSpec_sample_cluster :
  (λ pjs, (pjs_Cluster pjs, pjs_PodSpec pjs)) <$>
    PostsubmitSpec sample_consts sample_postsubmit sample_refs =
  Some ("default", sample_PodSpec).
Proof. reflexivity. Qed.

Example PeriodicSpec_sample_cluster :
  (λ pjs, (pjs_Cluster pjs, pjs_PodSpec pjs)) <$>
    PeriodicSpec sample_consts sample_periodic =
  Some ("", zero_PodSpec).
Proof. reflexivity. Qed.

(** ** NewProwJob *)

(** C9. For every spec and label mapping, whatever the state of the
    identifier generator and of the clock, the record returned by NewProwJob
    is in state Triggered, which is therefore the only state of a fresh
    record, and its start time is the clock reading taken at creation. *)
Theorem NewProwJob_is_Triggered {World : Type}
    (uuid_NewV1_String : World → string * World)
    (metav1_Now : World → Time * World)
    (spec : ProwJobSpec) (labels : gmap string string) (w : World) :
  let pj := (NewProwJob uuid_NewV1_String metav1_Now spec labels w).1 in
  st_State (pj_Status pj) = TriggeredState ∧
  st_StartTime (pj_Status pj) = (metav1_Now (uuid_NewV1_String w).2).1 ∧
  om_Name (pj_ObjectMeta pj) = (uuid_NewV1_String w).1 ∧
  om_Labels (pj_ObjectMeta pj) = labels ∧
  pj_Spec pj = spec.
Proof.
  unfold NewProwJob. destruct (uuid_NewV1_String w) as [name w1]; simpl.
  destruct (metav1_Now w1) as [now w2]; simpl. done.
Qed.

Example NewProwJob_sample :
  (NewProwJob sample_uuid sample_now (sample_spec PeriodicJob "nightly") ∅
     7%nat).1 =
  {| pj_APIVersion := "prow.k8s.io/v1"; pj_Kind := "ProwJob";
     pj_ObjectMeta :=
       {| om_Name := "uuid-7"; om_Labels := ∅; om_Annotations := ∅ |};
     pj_Spec := sample_spec PeriodicJob "nightly";
     pj_Status := {| st_StartTime := 1008; st_State := TriggeredState |} |}.
Proof. reflexivity. Qed.

(** ** PartitionActive *)

(** Case analysis on the state of the record at the head of the list. *)
Ltac head_state pj :=
  destruct (decide (hasState PendingState pj)) as [Hp|Hp];
  destruct (decide (hasState TriggeredState pj)) as [Ht|Ht];
  [ unfold hasState in *; congruence
  | rewrite (filter_cons_True (hasState PendingState)) by done;
    rewrite (filter_cons_False (hasState TriggeredState)) by done;
    unfold hasState in Hp; rewrite Hp
  | rewrite (filter_cons_False (hasState PendingState)) by done;
    rewrite (filter_cons_True (hasState TriggeredState)) by done;
    unfold hasState in Ht; rewrite Ht
  | rewrite (filter_cons_False (hasState PendingState)) by done;
    rewrite (filter_cons_False (hasState TriggeredState)) by done;
    unfold hasState in Hp, Ht;
    destruct (st_State (pj_Status pj)); try done ].

(** The first pass counts the records of the two states. *)
Lemma PartitionActive_counts pjs a b :
  foldl (λ '(pendingCount, triggeredCount) pj,
           match st_State (pj_Status pj) with
           | PendingState => (S pendingCount, triggeredCount)
           | TriggeredState => (pendingCount, S triggeredCount)
           | _ => (pendingCount, triggeredCount)
           end) (a, b) pjs
  = ((a + length (filter (hasState PendingState) pjs))%nat,
     (b + length (filter (hasState TriggeredState) pjs))%nat).
Proof.
  revert a b. induction pjs as [|pj pjs IH]; intros a b; simpl.
  { f_equal; lia. }
  head_state pj; rewrite IH; simpl; f_equal; lia.
Qed.

(** The second pass: no send blocks as long as the buffers have room for
    the records still to come. *)
Lemma PartitionActive_sends pjs bp cp bt ct :
  (length bp + length (filter (hasState PendingState) pjs) ≤ cp)%nat →
  (length bt + length (filter (hasState TriggeredState) pjs) ≤ ct)%nat →
  foldl (λ chans pj,
           '(pending, triggered) ← chans;
           match st_State (pj_Status pj) with
           | PendingState =>
               pending ← send pending pj; Some (pending, triggered)
           | TriggeredState =>
               triggered ← send triggered pj; Some (pending, triggered)
           | _ => Some (pending, triggered)
           end)
        (Some ({| ch_buf := bp; ch_cap := cp; ch_closed := false |},
               {| ch_buf := bt; ch_cap := ct; ch_closed := false |})) pjs
  = Some ({| ch_buf := bp ++ filter (hasState PendingState) pjs;
             ch_cap := cp; ch_closed := false |},
          {| ch_buf := bt ++ filter (hasState TriggeredState) pjs;
             ch_cap := ct; ch_closed := false |}).
Proof.
  revert bp bt. induction pjs as [|pj pjs IH]; intros bp bt; simpl.
  { by rewrite !app_nil_r. }
  head_state pj; simpl; intros Hlp Hlt.
  - unfold send; simpl. rewrite decide_True by lia. simpl.
    rewrite IH, <- ?app_assoc; [done|rewrite ?length_app; simpl; lia..].
  - unfold send; simpl. rewrite decide_True by lia. simpl.
    rewrite IH, <- ?app_assoc; [done|rewrite ?length_app; simpl; lia..].
  - by rewrite IH.
  - by rewrite IH.
  - by rewrite IH.
  - by rewrite IH.
Qed.

(** C4. For every record list, PartitionActive returns; the pending group
    holds exactly the records in state Pending and the triggered group
    exactly those in state Triggered, in input order; each group was
    allocated with a capacity equal to its count and is closed; no record in
    state Success, Failure, Aborted or Error is in either group. *)
Theorem PartitionActive_partitions (pjs : list ProwJob) :
  ∃ pending triggered,
    PartitionActive pjs = Some (pending, triggered) ∧
    ch_buf pending = filter (hasState PendingState) pjs ∧
    ch_buf triggered = filter (hasState TriggeredState) pjs ∧
    ch_cap pending = length (ch_buf pending) ∧
    ch_cap triggered = length (ch_buf triggered) ∧
    ch_closed pending = true ∧ ch_closed triggered = true ∧
    Forall (λ pj, st_State (pj_Status pj) ∉
                    [SuccessState; FailureState; AbortedState; ErrorState])
           (ch_buf pending ++ ch_buf triggered).
Proof.
  unfold PartitionActive. rewrite PartitionActive_counts; simpl.
  unfold make_chan. rewrite PartitionActive_sends by (simpl; lia). simpl.
  eexists _, _. split; [done|]. simpl. split_and!; try done.
  apply Forall_app. split; apply Forall_forall;
    intros pj [Hst _]%list_elem_of_filter; unfold hasState in Hst;
    rewrite Hst;
    rewrite !not_elem_of_cons; split_and!; done || apply not_elem_of_nil.
Qed.

(** The example of the specification: states Pending, Triggered, Success,
    Pending. *)
Example PartitionActive_sample :
  PartitionActive sample_states =
  Some ({| ch_buf := [ sample_job "j1" PresubmitJob "foo" 10 PendingState;
                       sample_job "j4" PresubmitJob "foo" 40 PendingState ];
           ch_cap := 2; ch_closed := true |},
        {| ch_buf := [ sample_job "j2" PresubmitJob "foo" 20 TriggeredState ];
           ch_cap := 1; ch_closed := true |}).
Proof. reflexivity. Qed.

(** ** GetLatestProwJobs *)

Lemma GetLatestProwJobs_snoc pjs j jobType :
  GetLatestProwJobs (pjs ++ [j]) jobType =
    let latestJobs := GetLatestProwJobs pjs jobType in
    if decide (pjs_Type (pj_Spec j) ≠ jobType) then latestJobs
    else if After (startTime j) (startTimeAt latestJobs (pjs_Job (pj_Spec j)))
         then <[pjs_Job (pj_Spec j) := j]> latestJobs
         else latestJobs.
Proof. unfold GetLatestProwJobs. by rewrite foldl_snoc. Qed.

Lemma candidates_snoc pjs j jobType name :
  candidates (pjs ++ [j]) jobType name =
    candidates pjs jobType name ++
    (if decide (pjs_Type (pj_Spec j) = jobType ∧ pjs_Job (pj_Spec j) = name)
     then [j] else []).
Proof.
  unfold candidates. by rewrite filter_app.
Qed.

Lemma After_spec t u : After t u = true ↔ u < t.
Proof. unfold After. apply bool_decide_eq_true. Qed.

Lemma first_latest_Forall j l :
  first_latest j l → Forall (λ j', startTime j' ≤ startTime j) l.
Proof.
  intros (l1 & l2 & -> & H1 & H2). apply Forall_app. split.
  - eapply Forall_impl; [exact H1|]. simpl. lia.
  - constructor; [lia|done].
Qed.

(** The loop invariant, per job name: the entry is the first of the latest
    records seen so far and started after the zero time; without an entry,
    no record seen so far started after the zero time. *)
Lemma GetLatestProwJobs_invariant pjs jobType name :
  match GetLatestProwJobs pjs jobType !! name with
  | Some j => zero_Time < startTime j ∧
              first_latest j (candidates pjs jobType name)
  | None => Forall (λ j, startTime j ≤ zero_Time)
                   (candidates pjs jobType name)
  end.
Proof.
  induction pjs as [|x pjs IH] using rev_ind.
  { unfold GetLatestProwJobs; simpl. rewrite lookup_empty. constructor. }
  rewrite GetLatestProwJobs_snoc, candidates_snoc. simpl.
  set (m := GetLatestProwJobs pjs jobType) in *.
  set (c := candidates pjs jobType name) in *.
  destruct (decide (pjs_Type (pj_Spec x) ≠ jobType)) as [Hty|Hty].
  { rewrite decide_False by tauto. by rewrite app_nil_r. }
  apply dec_stable in Hty.
  destruct (decide (pjs_Job (pj_Spec x) = name)) as [Hn|Hn]; cycle 1.
  { rewrite decide_False by tauto. rewrite app_nil_r.
    destruct (After _ _); [by rewrite lookup_insert_ne|done]. }
  rewrite decide_True by done. rewrite Hn.
  destruct (After (startTime x) (startTimeAt m name)) eqn:Haft.
  - apply After_spec in Haft. rewrite lookup_insert_eq.
    unfold startTimeAt in Haft. fold (startTime x).
    destruct (m !! name) as [j|]; simpl in *.
    + destruct IH as [Hpos Hfl]. split; [unfold startTime in *; lia|].
      exists c, []. split_and!; [done| |done].
      apply first_latest_Forall in Hfl.
      eapply Forall_impl; [exact Hfl|]. simpl.
      intros j'. unfold startTime in *. lia.
    + split; [done|]. exists c, []. split_and!; [done| |done].
      eapply Forall_impl; [exact IH|]. simpl.
      intros j'. unfold zero_Time in *. lia.
  - assert (¬ startTimeAt m name < startTime x) as Hle.
    { intros ?%After_spec. congruence. }
    unfold startTimeAt in Hle.
    destruct (m !! name) as [j|]; simpl in *.
    + destruct IH as [Hpos (l1 & l2 & Hc & H1 & H2)]. split; [done|].
      exists l1, (l2 ++ [x]). split_and!; [|done|].
      * by rewrite Hc, <- app_assoc.
      * apply Forall_app. split; [done|]. constructor; [|done].
        unfold startTime in *. lia.
    + apply Forall_app. split; [done|]. constructor; [|done].
      unfold startTime in *. lia.
Qed.

Lemma first_latest_elem_of j l : first_latest j l → j ∈ l.
Proof. intros (l1 & l2 & -> & _). set_solver. Qed.

(** C5, as the code has it. For every record list and job type, the mapping
    returned by GetLatestProwJobs holds only records of that type; for each
    job name that has a record of the type started strictly after the zero
    time, it holds the first of the records of that name and type with the
    greatest start time (a holder is replaced only by a strictly later
    record); every other job name, and so every name without a record of the
    type, has no entry. *)
Theorem GetLatestProwJobs_keeps_latest (pjs : list ProwJob)
    (jobType : ProwJobType) :
  keeps_latest_after_zero pjs jobType (GetLatestProwJobs pjs jobType).
Proof.
  split_and!.
  - intros name j Hj.
    pose proof (GetLatestProwJobs_invariant pjs jobType name) as Hinv.
    rewrite Hj in Hinv. destruct Hinv as [_ Hfl%first_latest_elem_of].
    unfold candidates in Hfl. by apply list_elem_of_filter in Hfl as [[? ?] _].
  - intros name Hex.
    pose proof (GetLatestProwJobs_invariant pjs jobType name) as Hinv.
    destruct (GetLatestProwJobs pjs jobType !! name) as [j|].
    + exists j. by destruct Hinv.
    + apply Exists_exists in Hex as (j & Hj & Hpos).
      rewrite Forall_forall in Hinv. specialize (Hinv j Hj). lia.
  - intros name Hall.
    pose proof (GetLatestProwJobs_invariant pjs jobType name) as Hinv.
    destruct (GetLatestProwJobs pjs jobType !! name) as [j|]; [|done].
    destruct Hinv as [Hpos Hj%first_latest_elem_of].
    rewrite Forall_forall in Hall. specialize (Hall j Hj). lia.
Qed.

(** The example of the specification: the later presubmit run of foo is
    kept, the postsubmit job bar has no entry. *)
Example GetLatestProwJobs_sample :
  GetLatestProwJobs sample_runs PresubmitJob =
  {[ "foo" := sample_job "r2" PresubmitJob "foo" 200 PendingState ]}.
Proof. by vm_compute. Qed.

(** C5 as stated fails. A presubmit record of foo whose start time is the
    zero time is the only record, hence the latest, of its job name, and yet
    the mapping has no entry for foo: the selection read over every job name
    fails. *)
Lemma GetLatestProwJobs_drops_unstarted :
  ¬ keeps_latest_per_name [unstarted_job] PresubmitJob
      (GetLatestProwJobs [unstarted_job] PresubmitJob).
Proof.
  intros (_ & Hkeep & _).
  destruct (Hkeep "foo") as (j & Hj & _); [by vm_compute|].
  by vm_compute in Hj.
Qed.

(** C10. A record whose start time is not strictly after the zero time is
    never an entry of the mapping returned by GetLatestProwJobs, whatever
    the record list, the job type and the job name, and so also when it is
    the only record of the type for its job name. *)
Theorem GetLatestProwJobs_excludes_zero_time (pjs : list ProwJob)
    (jobType : ProwJobType) (name : string) (j : ProwJob) :
  After (startTime j) zero_Time = false →
  GetLatestProwJobs pjs jobType !! name ≠ Some j.
Proof.
  intros Hnot Hj.
  pose proof (GetLatestProwJobs_invariant pjs jobType name) as Hinv.
  rewrite Hj in Hinv. destruct Hinv as [Hpos%After_spec _]. congruence.
Qed.

Lemma GetLatestProwJobs_excludes_zero_time_witness :
  After (startTime unstarted_job) zero_Time = false ∧
  GetLatestProwJobs [unstarted_job] PresubmitJob !! "foo" ≠ Some unstarted_job.
Proof.
  split; [reflexivity|].
  apply (GetLatestProwJobs_excludes_zero_time [unstarted_job] PresubmitJob
           "foo" unstarted_job).
  reflexivity.
Defined.

Example GetLatestProwJobs_unstarted :
  GetLatestProwJobs [unstarted_job] PresubmitJob = ∅.
Proof. reflexivity. Qed.

(** ** ProwJobToPod *)

(** kubeEnv lists the entries in the order of its traversal. *)
Lemma kubeEnv_fmap order env :
  kubeEnv order env =
    (λ kv, {| env_Name := kv.1; env_Value := kv.2 |}) <$> order env.
Proof.
  unfold kubeEnv. generalize (order env). intros l.
  set (g := λ kv : string * string,
              {| env_Name := kv.1; env_Value := kv.2 |}).
  assert (∀ acc, foldl (λ kubeEnvironment kv, kubeEnvironment ++ [g kv])
                   acc l = acc ++ (g <$> l)) as Hgen; [|apply Hgen].
  induction l as [|kv l IH]; intros acc; simpl.
  - by rewrite app_nil_r.
  - by rewrite IH, <- app_assoc.
Qed.

Lemma kubeEnv_entries rangeOrder k env :
  visits_all rangeOrder → kubeEnv (rangeOrder k) env ≡ₚ env_entries env.
Proof.
  intros Hall. rewrite kubeEnv_fmap. unfold env_entries. by rewrite (Hall k env).
Qed.

Lemma elem_of_env_entries env key value :
  env !! key = Some value →
  {| env_Name := key; env_Value := value |} ∈ env_entries env.
Proof.
  intros Hkv. unfold env_entries. apply list_elem_of_fmap.
  exists (key, value). split; [done|]. by apply elem_of_map_to_list.
Qed.

(** Copying the labels entry by entry rebuilds the map, whatever the order
    of the traversal. *)
Lemma foldl_insert_reverse (l : list (string * string))
    (m : gmap string string) :
  foldl (λ podLabels kv, <[kv.1 := kv.2]> podLabels) m l =
  foldr (λ kv podLabels, <[kv.1 := kv.2]> podLabels) m (reverse l).
Proof.
  revert m. induction l as [|kv l IH]; intros m; simpl; [done|].
  by rewrite IH, reverse_cons, foldr_app.
Qed.

Lemma copy_labels rangeOrder k (labels : gmap string string) :
  visits_all rangeOrder →
  foldl (λ podLabels kv, <[kv.1 := kv.2]> podLabels) ∅ (rangeOrder k labels)
  = labels.
Proof.
  intros Hall. rewrite foldl_insert_reverse.
  transitivity (list_to_map (map_to_list labels) : gmap string string);
    [|apply list_to_map_to_list].
  change (foldr _ ∅ ?l) with (list_to_map l : gmap string string).
  apply list_to_map_proper.
  - rewrite fmap_reverse, reverse_Permutation, (Hall k labels).
    apply NoDup_fst_map_to_list.
  - by rewrite reverse_Permutation.
Qed.

(** One element assignment at the last position of a slice. *)
Lemma update_at_last {A : Type} (f : A → A) (out : list A) (c : A) i :
  i = length out → update_at i f (out ++ [c]) = Some (out ++ [f c]).
Proof.
  intros ->. unfold update_at. rewrite list_lookup_middle by done. simpl.
  rewrite insert_app_r_alt by done. by rewrite Nat.sub_diag.
Qed.

Lemma rangeLoop_S {St : Type} (body : nat → St → option St) i n s :
  rangeLoop body i (S n) s = body i s ≫= rangeLoop body (S i) n.
Proof. done. Qed.

Section Loops.
Context (rangeOrder : nat → gmap string string → list (string * string)).
Context (spareCap : nat → nat → nat).
Context (name : string) (env : gmap string string).

Lemma containerStep_last done c rest out k h :
  length out = length done →
  containerStep rangeOrder spareCap (done ++ c :: rest) name env
    (length done) (out, k, h)
  = Some (out ++ [(materialized spareCap name (kubeEnv (rangeOrder k) env)
                     (length done) h c).2],
          S k,
          (materialized spareCap name (kubeEnv (rangeOrder k) env)
             (length done) h c).1).
Proof.
  intros Hlen. unfold containerStep.
  rewrite list_lookup_middle by done. simpl.
  rewrite list_lookup_middle by done. simpl.
  unfold materialized. case_decide; simpl.
  - rewrite update_at_last by done. simpl.
    rewrite list_lookup_middle by done. simpl.
    destruct (appendEnv _ _ _ _) as [h' e]. simpl.
    by rewrite update_at_last by done.
  - rewrite list_lookup_middle by done. simpl.
    destruct (appendEnv _ _ _ _) as [h' e]. simpl.
    by rewrite update_at_last by done.
Qed.

(** The loop never indexes out of range, and builds the materialized
    containers in order. *)
Lemma containerLoop rest : ∀ done out k h,
  length out = length done →
  rangeLoop (containerStep rangeOrder spareCap (done ++ rest) name env)
    (length done) (length rest) (out, k, h)
  = Some (out ++ (materializeFrom spareCap name
                    (λ k, kubeEnv (rangeOrder k) env) k (length done) h
                    rest).1,
          (k + length rest)%nat,
          (materializeFrom spareCap name (λ k, kubeEnv (rangeOrder k) env) k
             (length done) h rest).2).
Proof.
  induction rest as [|c rest IH]; intros done out k h Hlen.
  { simpl. by rewrite app_nil_r, Nat.add_0_r. }
  cbn [length]. rewrite rangeLoop_S, containerStep_last by done.
  cbn [mbind option_bind materializeFrom].
  destruct (materialized _ _ _ _ _ _) as [h1 c1]. cbn [fst snd].
  replace (done ++ c :: rest) with ((done ++ [c]) ++ rest)
    by (by rewrite <- app_assoc).
  replace (S (length done)) with (length (done ++ [c]))
    by (rewrite length_app; simpl; lia).
  rewrite IH by (rewrite !length_app; simpl; lia).
  destruct (materializeFrom _ _ _ _ _ _ _) as [cs h2]. cbn [fst snd].
  rewrite <- app_assoc. simpl. do 3 f_equal. lia.
Qed.

Lemma containerLoop_all src k h :
  rangeLoop (containerStep rangeOrder spareCap src name env) 0 (length src)
    ([], k, h)
  = Some ((materializeFrom spareCap name (λ k, kubeEnv (rangeOrder k) env) k
             0 h src).1,
          (k + length src)%nat,
          (materializeFrom spareCap name (λ k, kubeEnv (rangeOrder k) env) k
             0 h src).2).
Proof. exact (containerLoop src [] [] k h eq_refl). Qed.
End Loops.

Global Instance Sprintf_s_d_inj name : Inj (=) (=) (Sprintf_s_d name).
Proof.
  intros i j Heq. unfold Sprintf_s_d in Heq.
  apply (inj (String.app name)), (inj (String.app "-")) in Heq.
  by apply (inj pretty) in Heq.
Qed.

Section Materialized.
Context (spareCap : nat → nat → nat) (name : string).

Lemma materialized_heap kenv i h c :
  materialized spareCap name kenv i h c =
  ((appendEnv spareCap h (ctr_Env c) kenv).1,
   set_ctr_Env (appendEnv spareCap h (ctr_Env c) kenv).2
     (if decide (ctr_Name c = "")
      then set_ctr_Name (Sprintf_s_d name i) c else c)).
Proof.
  unfold materialized. case_decide; simpl;
    by destruct (appendEnv _ _ _ _).
Qed.

Lemma materialized_fields kenv i h c :
  let c' := (materialized spareCap name kenv i h c).2 in
  ctr_Name c' =
    (if decide (ctr_Name c = "") then Sprintf_s_d name i else ctr_Name c) ∧
  ctr_Image c' = ctr_Image c ∧ ctr_Command c' = ctr_Command c ∧
  ctr_Args c' = ctr_Args c.
Proof. rewrite materialized_heap. simpl. by case_decide. Qed.

Lemma materializeFrom_cons kenv k i h c rest :
  materializeFrom spareCap name kenv k i h (c :: rest) =
  ((materialized spareCap name (kenv k) i h c).2 ::
   (materializeFrom spareCap name kenv (S k) (S i)
      (materialized spareCap name (kenv k) i h c).1 rest).1,
   (materializeFrom spareCap name kenv (S k) (S i)
      (materialized spareCap name (kenv k) i h c).1 rest).2).
Proof.
  simpl. destruct (materialized _ _ _ _ _ _) as [h1 c1]. simpl.
  by destruct (materializeFrom _ _ _ _ _ _ _).
Qed.

Lemma materializeFrom_length kenv rest : ∀ k i h,
  length (materializeFrom spareCap name kenv k i h rest).1 = length rest.
Proof.
  induction rest as [|c rest IH]; intros k i h; [done|].
  rewrite materializeFrom_cons. simpl. by rewrite IH.
Qed.

Lemma materializeFrom_lookup kenv rest : ∀ k i h j c,
  rest !! j = Some c →
  ∃ c', (materializeFrom spareCap name kenv k i h rest).1 !! j = Some c' ∧
        ctr_Name c' =
          (if decide (ctr_Name c = "")
           then Sprintf_s_d name (i + j) else ctr_Name c) ∧
        ctr_Image c' = ctr_Image c ∧ ctr_Command c' = ctr_Command c ∧
        ctr_Args c' = ctr_Args c.
Proof.
  induction rest as [|c0 rest IH]; intros k i h j c Hc; [done|].
  rewrite materializeFrom_cons. destruct j as [|j]; simpl in *.
  - injection Hc as ->. eexists. split; [done|].
    rewrite Nat.add_0_r. apply materialized_fields.
  - replace (i + S j)%nat with (S i + j)%nat by lia. by apply IH.
Qed.

Lemma materializeFrom_names kenv k h src :
  names_defaulted name src
    (materializeFrom spareCap name kenv k 0 h src).1.
Proof.
  split; [apply materializeFrom_length|]. intros i c Hc.
  by apply (materializeFrom_lookup kenv src k 0 h i c).
Qed.
End Materialized.

Lemma Sprintf_s_d_nonempty name i : Sprintf_s_d name i ≠ "".
Proof. unfold Sprintf_s_d. by destruct name. Qed.

(** Within one list the default names are those of distinct positions. *)
Lemma defaulted_names_positions name src : ∀ n out,
  length out = length src →
  (∀ j c c', src !! j = Some c → out !! j = Some c' → ctr_Name c = "" →
             ctr_Name c' = Sprintf_s_d name (n + j)) →
  NoDup (defaulted_names src out) ∧
  ∀ s, s ∈ defaulted_names src out →
       ∃ i, (n ≤ i)%nat ∧ s = Sprintf_s_d name i.
Proof.
  induction src as [|c src IH]; intros n [|c' out] Hlen Hnames;
    try discriminate.
  { split; [constructor|]. intros s Hs. by apply elem_of_nil in Hs. }
  destruct (IH (S n) out) as [Hnd Hin]; [by injection Hlen|..].
  { intros j d d' Hd Hd' He.
    rewrite (Hnames (S j) d d' Hd Hd' He). f_equal. lia. }
  unfold defaulted_names in *. cbn [zip zip_with].
  rewrite filter_cons. cbn [fst]. case_decide as Hname.
  - rewrite fmap_cons. cbn [snd].
    rewrite (Hnames 0%nat c c' eq_refl eq_refl Hname), Nat.add_0_r. split.
    + apply NoDup_cons. split; [|done].
      intros (i & Hi & Heq%(inj _))%Hin. lia.
    + intros s [->|Hs]%elem_of_cons; [by exists n|].
      destruct (Hin s Hs) as (i & Hi & ->). exists i. split; [lia|done].
  - split; [done|]. intros s Hs.
    destruct (Hin s Hs) as (i & Hi & ->). exists i. split; [lia|done].
Qed.

Lemma names_defaulted_NoDup name src out :
  names_defaulted name src out → NoDup (defaulted_names src out).
Proof.
  intros [Hlen Hnames].
  apply (defaulted_names_positions name src 0 out Hlen).
  intros j c c' Hc Hc' He.
  destruct (Hnames j c Hc) as (c'' & Hc'' & Hn & _).
  rewrite Hc' in Hc''. injection Hc'' as <-.
  by rewrite Hn, decide_True.
Qed.

Lemma names_defaulted_named name src out :
  names_defaulted name src out → Forall (λ c, ctr_Name c ≠ "") out.
Proof.
  intros [Hlen Hnames]. apply Forall_lookup. intros i c' Hc'.
  destruct (lookup_lt_is_Some_2 src i) as [c Hc].
  { rewrite <- Hlen. by eapply lookup_lt_Some. }
  destruct (Hnames i c Hc) as (c'' & Hc'' & Hn & _).
  rewrite Hc' in Hc''. injection Hc'' as <-. rewrite Hn.
  case_decide; [apply Sprintf_s_d_nonempty|done].
Qed.

Section Materialize.
Context (K : KubeConsts) {JobSpec error : Type}.
Context (NewJobSpec : ProwJobSpec → string → string → JobSpec).
Context (EnvForSpec : JobSpec → gmap string string * option error).
Context (rangeOrder : nat → gmap string string → list (string * string)).
Context (spareCap : nat → nat → nat).

(** The pod built when the derivation of the environment succeeds. *)
Lemma ProwJobToPod_derived pj buildID h env :
  EnvForSpec (NewJobSpec (pj_Spec pj) buildID (om_Name (pj_ObjectMeta pj)))
    = (env, None) →
  let name := om_Name (pj_ObjectMeta pj) in
  let template := pjs_PodSpec (pj_Spec pj) in
  let n := length (ps_InitContainers template) in
  let m := length (ps_Containers template) in
  let kenv := λ k, kubeEnv (rangeOrder k) env in
  let inits :=
    materializeFrom spareCap name kenv 0 0 h (ps_InitContainers template) in
  let ctrs :=
    materializeFrom spareCap name kenv n 0 inits.2 (ps_Containers template) in
  ProwJobToPod K NewJobSpec EnvForSpec rangeOrder spareCap pj buildID h =
  Some (Some
    {| pod_ObjectMeta :=
         {| om_Name := name;
            om_Labels :=
              <[ProwJobTypeLabel K :=
                  ProwJobType_string K (pjs_Type (pj_Spec pj))]>
                (<[CreatedByProw K := "true"]>
                   (foldl (λ podLabels kv, <[kv.1 := kv.2]> podLabels) ∅
                      (rangeOrder (n + m)%nat
                         (om_Labels (pj_ObjectMeta pj)))));
            om_Annotations :=
              {[ ProwJobAnnotation K := pjs_Job (pj_Spec pj) ]} |};
       pod_Spec :=
         {| ps_InitContainers := inits.1;
            ps_Containers := ctrs.1;
            ps_RestartPolicy := "Never" |} |},
    None, ctrs.2).
Proof.
  intros Henv. unfold ProwJobToPod. rewrite Henv.
  rewrite containerLoop_all. cbn [mbind option_bind].
  rewrite containerLoop_all. cbn [mbind option_bind]. done.
Qed.

(** A returned pod is the pod of a successful derivation. *)
Lemma ProwJobToPod_inv pj buildID h pod h' :
  ProwJobToPod K NewJobSpec EnvForSpec rangeOrder spareCap pj buildID h
    = Some (Some pod, None, h') →
  ∃ env,
    EnvForSpec (NewJobSpec (pj_Spec pj) buildID (om_Name (pj_ObjectMeta pj)))
      = (env, None).
Proof.
  intros Hpod.
  destruct (EnvForSpec
              (NewJobSpec (pj_Spec pj) buildID (om_Name (pj_ObjectMeta pj))))
    as [env [err|]] eqn:Henv; [|by eauto].
  unfold ProwJobToPod in Hpod. by rewrite Henv in Hpod.
Qed.

Lemma ProwJobToPod_labels pj buildID h pod h' :
  visits_all rangeOrder →
  ProwJobToPod K NewJobSpec EnvForSpec rangeOrder spareCap pj buildID h
    = Some (Some pod, None, h') →
  om_Labels (pod_ObjectMeta pod) =
    <[ProwJobTypeLabel K := ProwJobType_string K (pjs_Type (pj_Spec pj))]>
      (<[CreatedByProw K := "true"]> (om_Labels (pj_ObjectMeta pj))).
Proof.
  intros Hall Hpod. destruct (ProwJobToPod_inv _ _ _ _ _ Hpod) as [env Henv].
  rewrite (ProwJobToPod_derived pj buildID h env Henv) in Hpod.
  injection Hpod as <- _. simpl. by rewrite copy_labels.
Qed.

(** The containers of a returned pod are those of the template with the
    names defaulted. *)
Lemma ProwJobToPod_names pj buildID h pod h' :
  ProwJobToPod K NewJobSpec EnvForSpec rangeOrder spareCap pj buildID h
    = Some (Some pod, None, h') →
  names_defaulted (om_Name (pj_ObjectMeta pj))
    (ps_InitContainers (pjs_PodSpec (pj_Spec pj)))
    (ps_InitContainers (pod_Spec pod)) ∧
  names_defaulted (om_Name (pj_ObjectMeta pj))
    (ps_Containers (pjs_PodSpec (pj_Spec pj)))
    (ps_Containers (pod_Spec pod)).
Proof.
  intros Hpod. destruct (ProwJobToPod_inv _ _ _ _ _ Hpod) as [env Henv].
  rewrite (ProwJobToPod_derived pj buildID h env Henv) in Hpod.
  injection Hpod as <- _. cbn [pod_Spec ps_InitContainers ps_Containers].
  split; apply materializeFrom_names.
Qed.
End Materialize.

(** ** Appending to slices *)

Lemma cells_alter_eq (f : list EnvVar → list EnvVar) (h : Heap) a :
  (a < length h)%nat → cells (alter f a h) a = f (cells h a).
Proof.
  intros [l Hl]%lookup_lt_is_Some. unfold cells.
  by rewrite list_lookup_alter_eq, Hl.
Qed.

Lemma cells_alter_ne (f : list EnvVar → list EnvVar) (h : Heap) a b :
  a ≠ b → cells (alter f a h) b = cells h b.
Proof. intros Hne. unfold cells. by rewrite list_lookup_alter_ne. Qed.

Lemma cells_alter_out (f : list EnvVar → list EnvVar) (h : Heap) a b :
  (length h ≤ a)%nat → cells (alter f a h) b = cells h b.
Proof.
  intros Hge. destruct (decide (a = b)) as [<-|]; [|by apply cells_alter_ne].
  unfold cells.
  by rewrite !lookup_ge_None_2 by (by rewrite ?length_alter).
Qed.

Lemma cells_snoc_old (h : Heap) new a :
  (a < length h)%nat → cells (h ++ [new]) a = cells h a.
Proof. intros Ha. unfold cells. by rewrite lookup_app_l. Qed.

Lemma cells_snoc_new (h : Heap) new : cells (h ++ [new]) (length h) = new.
Proof. unfold cells. by rewrite list_lookup_middle. Qed.

Lemma cells_nonempty (h : Heap) a :
  (0 < length (cells h a))%nat → (a < length h)%nat.
Proof.
  unfold cells. intros Hlen. apply lookup_lt_is_Some.
  destruct (h !! a); [by eauto|simpl in Hlen; lia].
Qed.

Lemma peek_lookup (h : Heap) a lo n i :
  peek h a lo n !! i =
    if decide (i < n)%nat then cells h a !! (lo + i)%nat else None.
Proof. unfold peek. by rewrite lookup_take, lookup_drop. Qed.

Lemma peek_0 (h : Heap) a lo : peek h a lo 0 = [].
Proof. done. Qed.

Lemma slice_ok_length h s : slice_ok h s → length (readEnv h s) = sl_len s.
Proof.
  intros [Hle Hcap]. unfold readEnv, peek.
  rewrite length_take, length_drop.
  destruct (decide (0 < sl_cap s)%nat) as [Hpos|]; [|lia].
  specialize (Hcap Hpos). lia.
Qed.

Lemma slice_ok_array h s :
  slice_ok h s → (0 < sl_cap s)%nat → (sl_arr s < length h)%nat.
Proof. intros [_ Hcap] Hpos. apply cells_nonempty. specialize (Hcap Hpos). lia. Qed.

Section Append.
Context (spareCap : nat → nat → nat).

(** An append keeps the arrays that exist and their lengths. *)
Lemma appendEnv_heap h s xs :
  (length h ≤ length (appendEnv spareCap h s xs).1)%nat ∧
  ∀ a, (a < length h)%nat →
       length (cells (appendEnv spareCap h s xs).1 a) = length (cells h a).
Proof.
  unfold appendEnv. case_decide; simpl.
  - rewrite length_alter. split; [done|]. intros a Ha.
    destruct (decide (sl_arr s = a)) as [<-|].
    + by rewrite cells_alter_eq, length_inserts.
    + by rewrite cells_alter_ne.
  - rewrite length_app. simpl. split; [lia|]. intros a Ha.
    by rewrite cells_snoc_old.
Qed.

(** An append writes only into the spare capacity of its slice, or into a
    new array. *)
Lemma appendEnv_frame h s xs a lo n :
  n = 0%nat ∨ ((a < length h)%nat ∧ spare_misses s a lo n) →
  peek (appendEnv spareCap h s xs).1 a lo n = peek h a lo n.
Proof.
  intros [->|[Ha Hmiss]]; [done|].
  unfold appendEnv. case_decide as Hfit; simpl.
  - destruct (decide (sl_arr s = a)) as [<-|Hne];
      [|unfold peek; by rewrite cells_alter_ne].
    apply list_eq. intros i. rewrite !peek_lookup. case_decide; [|done].
    rewrite cells_alter_eq by done.
    destruct Hmiss as [?|[Hfull|[Hbefore|Hafter]]]; [done|..].
    + assert (length xs = 0)%nat as ->%nil_length_inv by lia. done.
    + apply list_lookup_inserts_lt. lia.
    + apply list_lookup_inserts_ge. lia.
  - unfold peek. by rewrite cells_snoc_old.
Qed.

(** The result of an append has the elements of the slice, then the
    appended ones. *)
Lemma appendEnv_read h s xs :
  slice_ok h s →
  readEnv (appendEnv spareCap h s xs).1 (appendEnv spareCap h s xs).2
  = readEnv h s ++ xs.
Proof.
  intros Hok. pose proof (slice_ok_length h s Hok) as Hlen.
  unfold appendEnv. case_decide as Hfit; cbn [fst snd].
  - destruct (decide (xs = [])) as [->|Hne].
    { rewrite app_nil_r. simpl. rewrite Nat.add_0_r. unfold readEnv, peek.
      simpl. by rewrite list_alter_id. }
    assert (0 < length xs)%nat as Hxs by (destruct xs; simpl; [done|lia]).
    assert (0 < sl_cap s)%nat as Hpos by lia.
    pose proof (slice_ok_array h s Hok Hpos) as Harr.
    destruct Hok as [_ Hcap]. specialize (Hcap Hpos).
    apply list_eq. intros i. unfold readEnv at 1. cbn [sl_arr sl_off sl_len].
    rewrite peek_lookup, cells_alter_eq by done.
    destruct (decide (i < sl_len s)%nat) as [Hi|Hi].
    + rewrite decide_True by lia.
      rewrite list_lookup_inserts_lt by lia.
      rewrite lookup_app_l by lia.
      unfold readEnv. by rewrite peek_lookup, decide_True.
    + rewrite lookup_app_r by lia. rewrite Hlen. case_decide as Hi'.
      * rewrite list_lookup_inserts by lia. f_equal. lia.
      * symmetry. apply lookup_ge_None_2. lia.
  - unfold readEnv at 1, peek. simpl. rewrite cells_snoc_new, drop_0.
    rewrite app_assoc. apply take_app_length'.
    rewrite length_app. lia.
Qed.

Lemma appendEnv_made_from h0 h s xs :
  slice_ok h s → (length h0 ≤ length h)%nat →
  made_from h0 (appendEnv spareCap h s xs).1 s (appendEnv spareCap h s xs).2.
Proof.
  intros Hok Hh0. unfold appendEnv, made_from. case_decide as Hfit; simpl.
  - rewrite length_alter.
    destruct (decide (sl_len s + length xs = 0)%nat); [by left|right].
    split; [apply (slice_ok_array h s Hok); lia|]. right. done.
  - right. rewrite length_app. simpl. split; [lia|]. by left.
Qed.
End Append.

Section AppendAll.
Context (spareCap : nat → nat → nat) (kenv : nat → list EnvVar).

Lemma appendAll_cons k h s l :
  appendAll spareCap kenv k h (s :: l) =
  ((appendEnv spareCap h s (kenv k)).2 ::
   (appendAll spareCap kenv (S k) (appendEnv spareCap h s (kenv k)).1 l).1,
   (appendAll spareCap kenv (S k) (appendEnv spareCap h s (kenv k)).1 l).2).
Proof.
  simpl. destruct (appendEnv _ _ _ _) as [h1 e]. simpl.
  by destruct (appendAll _ _ _ _ _).
Qed.

Lemma appendAll_app l1 : ∀ k h l2,
  appendAll spareCap kenv k h (l1 ++ l2) =
  ((appendAll spareCap kenv k h l1).1 ++
   (appendAll spareCap kenv (k + length l1)
      (appendAll spareCap kenv k h l1).2 l2).1,
   (appendAll spareCap kenv (k + length l1)
      (appendAll spareCap kenv k h l1).2 l2).2).
Proof.
  induction l1 as [|s l1 IH]; intros k h l2.
  { simpl. rewrite Nat.add_0_r. by destruct (appendAll _ _ _ _ _). }
  rewrite <- app_comm_cons, !appendAll_cons, IH. cbn [fst snd length].
  by rewrite Nat.add_succ_r.
Qed.

Lemma appendAll_length l : ∀ k h,
  length (appendAll spareCap kenv k h l).1 = length l.
Proof.
  induction l as [|s l IH]; intros k h; [done|].
  rewrite appendAll_cons. simpl. by rewrite IH.
Qed.

(** The appends of a call, when the slices are separate: the arrays that
    existed keep their lengths; every cell that no spare capacity covers
    keeps its content; every resulting slice has the elements of its source
    followed by the appended ones. *)
Lemma appendAll_separate h0 k Q :
  env_separate h0 Q →
  let r := appendAll spareCap kenv k h0 Q in
  ((length h0 ≤ length r.2)%nat ∧
   ∀ a, (a < length h0)%nat → length (cells r.2 a) = length (cells h0 a)) ∧
  (∀ a lo n,
     n = 0%nat ∨ ((a < length h0)%nat ∧ ∀ q, q ∈ Q → spare_misses q a lo n) →
     peek r.2 a lo n = peek h0 a lo n) ∧
  (∀ j q, Q !! j = Some q →
     ∃ o, r.1 !! j = Some o ∧
          readEnv r.2 o = readEnv h0 q ++ kenv (k + j)%nat ∧
          made_from h0 r.2 q o).
Proof.
  induction Q as [|s Q IH] using rev_ind; intros [Hok Hsep].
  { simpl. split_and!; [done|done|done|]. by intros j q ?. }
  apply Forall_app in Hok as [HokQ [Hoks _]%Forall_cons].
  destruct IH as ([Hgrow Hlens] & Hframe & Houts).
  { split; [done|]. intros i j q t Hij Hq Ht.
    apply (Hsep i j); [done|by apply lookup_app_l_Some..]. }
  rewrite appendAll_app. cbn zeta. cbn [fst snd].
  set (r := appendAll spareCap kenv k h0 Q) in *.
  rewrite appendAll_cons. cbn [appendAll fst snd].
  set (xs := kenv (k + length Q)%nat).
  (* the last slice, read in the arrays as they are when its turn comes *)
  assert (slice_ok r.2 s) as Hoks'.
  { destruct Hoks as [Hle Hcap]. split; [done|]. intros Hpos.
    rewrite Hlens; [by apply Hcap|].
    apply cells_nonempty. specialize (Hcap Hpos). lia. }
  assert (∀ j q, Q !! j = Some q → spare_clear_of q s) as Hqs.
  { intros j q Hq. apply (Hsep j (length Q)).
    - apply lookup_lt_Some in Hq. lia.
    - by apply lookup_app_l_Some.
    - by apply list_lookup_middle. }
  assert (∀ j q, Q !! j = Some q → spare_clear_of s q) as Hsq.
  { intros j q Hq. apply (Hsep (length Q) j).
    - apply lookup_lt_Some in Hq. lia.
    - by apply list_lookup_middle.
    - by apply lookup_app_l_Some. }
  assert (readEnv r.2 s = readEnv h0 s) as Hreads.
  { apply Hframe.
    destruct (decide (sl_len s = 0)%nat) as [?|Hlen]; [by left|right].
    split. { apply (slice_ok_array h0 s Hoks). destruct Hoks. lia. }
    intros q [j Hq]%list_elem_of_lookup.
    destruct Hoks as [Hle _]. pose proof (Hqs j q Hq) as Hclear.
    unfold spare_misses, spare_clear_of in *. lia. }
  pose proof (appendEnv_heap spareCap r.2 s xs) as [Hgrow' Hlens'].
  split_and!.
  - lia.
  - intros a Ha. rewrite Hlens' by lia. by apply Hlens.
  - intros a lo n [->|[Ha Hmiss]]; [done|].
    rewrite appendEnv_frame.
    + apply Hframe. right. split; [done|].
      intros q Hq. apply Hmiss, elem_of_app. by left.
    + right. split; [lia|]. apply Hmiss, elem_of_app. right. by left.
  - intros j q Hjq. apply lookup_snoc_Some in Hjq as [[Hj Hq]|[-> <-]].
    + destruct (Houts j q Hq) as (o & Ho & Hread & Hmade).
      exists o. split; [by apply lookup_app_l_Some|]. split.
      * rewrite <- Hread. unfold readEnv. apply appendEnv_frame.
        destruct Hmade as [?|[Harr Hwhere]]; [by left|].
        destruct (decide (sl_len o = 0)%nat) as [?|Hlen]; [by left|right].
        split; [done|]. unfold spare_misses.
        destruct Hwhere as [Hnew|(Ha & Ho' & Hl)].
        -- destruct (decide (0 < sl_cap s)%nat) as [Hpos|]; [|right; left; lia].
           left. pose proof (slice_ok_array h0 s Hoks Hpos). lia.
        -- rewrite Ha, Ho'. pose proof (Hsq j q Hq) as Hclear.
           unfold spare_clear_of in Hclear. lia.
      * destruct Hmade as [?|[Harr Hwhere]]; [by left|right].
        split; [lia|done].
    + exists (appendEnv spareCap r.2 s xs).2. split.
      * rewrite <- (appendAll_length Q k h0). by apply list_lookup_middle.
      * split; [by rewrite appendEnv_read, Hreads|].
        by apply appendEnv_made_from.
Qed.

(** The slices of the record read the same before and after. *)
Lemma appendAll_sources h0 k Q j q :
  env_separate h0 Q → Q !! j = Some q →
  readEnv (appendAll spareCap kenv k h0 Q).2 q = readEnv h0 q.
Proof.
  intros Hsep Hq.
  destruct (appendAll_separate h0 k Q Hsep) as (_ & Hframe & _).
  apply Hframe. destruct Hsep as [Hok Hsep].
  assert (slice_ok h0 q) as Hokq.
  { rewrite Forall_lookup in Hok. by apply (Hok j). }
  destruct (decide (sl_len q = 0)%nat) as [?|Hlen]; [by left|right].
  split. { apply (slice_ok_array h0 q Hokq). destruct Hokq. lia. }
  intros q' [i Hq']%list_elem_of_lookup. unfold spare_misses.
  destruct (decide (i = j)) as [->|Hij].
  { rewrite Hq in Hq'. injection Hq' as <-. lia. }
  destruct Hokq as [Hle _]. pose proof (Hsep i j q' q Hij Hq' Hq) as Hclear.
  unfold spare_clear_of in Hclear. lia.
Qed.
End AppendAll.

Lemma materializeFrom_env spareCap name kenv rest : ∀ k i h,
  ctr_Env <$> (materializeFrom spareCap name kenv k i h rest).1
    = (appendAll spareCap kenv k h (ctr_Env <$> rest)).1 ∧
  (materializeFrom spareCap name kenv k i h rest).2
    = (appendAll spareCap kenv k h (ctr_Env <$> rest)).2.
Proof.
  induction rest as [|c rest IH]; intros k i h; [done|].
  rewrite materializeFrom_cons, materialized_heap. cbn [fst snd].
  rewrite !fmap_cons, appendAll_cons. cbn [fst snd].
  destruct (IH (S k) (S i) (appendEnv spareCap h (ctr_Env c) (kenv k)).1)
    as [-> ->].
  split; [|done]. f_equal.
Qed.

Lemma env_appended_app h h' env l1 l2 o1 o2 :
  length o1 = length l1 →
  env_appended h h' env (l1 ++ l2) (o1 ++ o2) →
  env_appended h h' env l1 o1 ∧ env_appended h h' env l2 o2.
Proof.
  intros Hlen Happ. split; intros i c Hc.
  - destruct (Happ i c) as (c' & added & Hc' & Hrest).
    { by apply lookup_app_l_Some. }
    exists c', added. split; [|done].
    rewrite lookup_app_l in Hc'; [done|].
    rewrite Hlen. by eapply lookup_lt_Some.
  - destruct (Happ (length l1 + i)%nat c) as (c' & added & Hc' & Hrest).
    { by rewrite lookup_app_r, Nat.add_sub' by lia. }
    exists c', added. split; [|done].
    by rewrite <- Hlen, lookup_app_r, Nat.add_sub' in Hc' by lia.
Qed.

Section MaterializeEnv.
Context (K : KubeConsts) {JobSpec error : Type}.
Context (NewJobSpec : ProwJobSpec → string → string → JobSpec).
Context (EnvForSpec : JobSpec → gmap string string * option error).
Context (rangeOrder : nat → gmap string string → list (string * string)).
Context (spareCap : nat → nat → nat).

(** With separate slices, the environments of a returned pod are those of
    the template followed by the derived entries, and the record's own
    environments are untouched. *)
Lemma ProwJobToPod_env pj buildID h env pod h' :
  visits_all rangeOrder →
  env_separate h
    (ctr_Env <$> (ps_InitContainers (pjs_PodSpec (pj_Spec pj)) ++
                  ps_Containers (pjs_PodSpec (pj_Spec pj)))) →
  EnvForSpec (NewJobSpec (pj_Spec pj) buildID (om_Name (pj_ObjectMeta pj)))
    = (env, None) →
  ProwJobToPod K NewJobSpec EnvForSpec rangeOrder spareCap pj buildID h
    = Some (Some pod, None, h') →
  env_appended h h' env (ps_InitContainers (pjs_PodSpec (pj_Spec pj)))
    (ps_InitContainers (pod_Spec pod)) ∧
  env_appended h h' env (ps_Containers (pjs_PodSpec (pj_Spec pj)))
    (ps_Containers (pod_Spec pod)).
Proof.
  intros Hall Hsep Henv Hpod.
  rewrite (ProwJobToPod_derived K NewJobSpec EnvForSpec rangeOrder spareCap
             pj buildID h env Henv) in Hpod.
  injection Hpod as <- <-. cbn [pod_Spec ps_InitContainers ps_Containers].
  set (name := om_Name (pj_ObjectMeta pj)) in *.
  set (kenv := λ k, kubeEnv (rangeOrder k) env) in *.
  set (I := ps_InitContainers (pjs_PodSpec (pj_Spec pj))) in *.
  set (C := ps_Containers (pjs_PodSpec (pj_Spec pj))) in *.
  set (inits := materializeFrom spareCap name kenv 0 0 h I).
  set (ctrs := materializeFrom spareCap name kenv (length I) 0 inits.2 C).
  apply env_appended_app; [apply materializeFrom_length|].
  destruct (materializeFrom_env spareCap name kenv I 0 0 h) as [HI1 HI2].
  destruct (materializeFrom_env spareCap name kenv C (length I) 0 inits.2)
    as [HC1 HC2].
  assert (ctr_Env <$> (inits.1 ++ ctrs.1)
          = (appendAll spareCap kenv 0 h (ctr_Env <$> (I ++ C))).1 ∧
          ctrs.2 = (appendAll spareCap kenv 0 h (ctr_Env <$> (I ++ C))).2)
    as [Houts Hheap].
  { rewrite !fmap_app, appendAll_app, length_fmap. cbn [fst snd].
    fold inits in HI1, HI2. fold ctrs in HC1, HC2.
    by rewrite HI1, HC1, HC2, HI2. }
  rewrite Hheap.
  destruct (appendAll_separate spareCap kenv h 0 _ Hsep) as (_ & _ & Hread).
  intros j c Hc.
  destruct (Hread j (ctr_Env c)) as (o & Ho & Hro & _).
  { by rewrite list_lookup_fmap, Hc. }
  rewrite <- Houts, list_lookup_fmap in Ho.
  destruct ((inits.1 ++ ctrs.1) !! j) as [c'|] eqn:Hc'; [|done].
  injection Ho as <-. exists c', (kenv (0 + j)%nat).
  split; [done|]. split; [done|].
  split; [by apply kubeEnv_entries|]. split.
  - intros key value Hkv. rewrite Hro, elem_of_app. right.
    unfold kenv. rewrite (kubeEnv_entries rangeOrder _ env Hall).
    by apply elem_of_env_entries.
  - apply (appendAll_sources spareCap kenv h 0 _ j); [done|].
    by rewrite list_lookup_fmap, Hc.
Qed.
End MaterializeEnv.

(** ** ProwJobToPod: the claims *)

(** C1, as the code has it. When the derivation of the environment succeeds,
    ProwJobToPod returns a pod whose init-containers and containers are
    those of the record's pod template, position by position, where every
    container without a name has the default name made of the record's name,
    a dash and the container's index in its own list. The default names are
    pairwise distinct among the init-containers and pairwise distinct among
    the containers. When, besides, the environment slices of the template
    lie within their arrays and the spare capacity of each is clear of all
    the others, every container's environment is its former environment
    followed by the entries of the derived mapping, and the record's own
    environments are untouched. *)
Theorem ProwJobToPod_containers (K : KubeConsts) {JobSpec error : Type}
    (NewJobSpec : ProwJobSpec → string → string → JobSpec)
    (EnvForSpec : JobSpec → gmap string string * option error)
    (rangeOrder : nat → gmap string string → list (string * string))
    (spareCap : nat → nat → nat)
    (pj : ProwJob) (buildID : string) (h : Heap)
    (env : gmap string string) :
  EnvForSpec (NewJobSpec (pj_Spec pj) buildID (om_Name (pj_ObjectMeta pj)))
    = (env, None) →
  ∃ pod h',
    ProwJobToPod K NewJobSpec EnvForSpec rangeOrder spareCap pj buildID h
      = Some (Some pod, None, h') ∧
    names_defaulted (om_Name (pj_ObjectMeta pj))
      (ps_InitContainers (pjs_PodSpec (pj_Spec pj)))
      (ps_InitContainers (pod_Spec pod)) ∧
    names_defaulted (om_Name (pj_ObjectMeta pj))
      (ps_Containers (pjs_PodSpec (pj_Spec pj)))
      (ps_Containers (pod_Spec pod)) ∧
    NoDup (defaulted_names (ps_InitContainers (pjs_PodSpec (pj_Spec pj)))
             (ps_InitContainers (pod_Spec pod))) ∧
    NoDup (defaulted_names (ps_Containers (pjs_PodSpec (pj_Spec pj)))
             (ps_Containers (pod_Spec pod))) ∧
    (visits_all rangeOrder →
     env_separate h
       (ctr_Env <$> (ps_InitContainers (pjs_PodSpec (pj_Spec pj)) ++
                     ps_Containers (pjs_PodSpec (pj_Spec pj)))) →
     env_appended h h' env (ps_InitContainers (pjs_PodSpec (pj_Spec pj)))
       (ps_InitContainers (pod_Spec pod)) ∧
     env_appended h h' env (ps_Containers (pjs_PodSpec (pj_Spec pj)))
       (ps_Containers (pod_Spec pod))).
Proof.
  intros Henv.
  pose proof (ProwJobToPod_derived K NewJobSpec EnvForSpec rangeOrder
                spareCap pj buildID h env Henv) as Hpod.
  cbn zeta in Hpod. eexists _, _. split; [exact Hpod|].
  destruct (ProwJobToPod_names K NewJobSpec EnvForSpec rangeOrder spareCap
              _ _ _ _ _ Hpod) as [Hinits Hctrs].
  split_and!; [done|done|by eapply names_defaulted_NoDup..|].
  intros Hall Hsep.
  by apply (ProwJobToPod_env K NewJobSpec EnvForSpec rangeOrder spareCap
              pj buildID h env).
Qed.

Lemma sample_env_separate :
  env_separate sample_heap
    (ctr_Env <$> (ps_InitContainers sample_PodSpec ++
                  ps_Containers sample_PodSpec)).
Proof.
  split.
  - repeat constructor; simpl; lia.
  - intros i j s t _ Hs _. right. left.
    apply list_elem_of_lookup_2 in Hs. simpl in Hs.
    rewrite !elem_of_cons, elem_of_nil in Hs.
    destruct Hs as [->|[->|[->|[]]]]; simpl; lia.
Qed.

Lemma ProwJobToPod_containers_witness :
  ∃ pod h',
    ProwJobToPod sample_consts sample_NewJobSpec sample_EnvForSpec
      sample_rangeOrder sample_spareCap sample_record "b1" sample_heap
      = Some (Some pod, None, h') ∧
    names_defaulted "pj" (ps_InitContainers sample_PodSpec)
      (ps_InitContainers (pod_Spec pod)) ∧
    names_defaulted "pj" (ps_Containers sample_PodSpec)
      (ps_Containers (pod_Spec pod)) ∧
    NoDup (defaulted_names (ps_InitContainers sample_PodSpec)
             (ps_InitContainers (pod_Spec pod))) ∧
    NoDup (defaulted_names (ps_Containers sample_PodSpec)
             (ps_Containers (pod_Spec pod))) ∧
    env_appended sample_heap h' {[ "BUILD_ID" := "b1"; "JOB_NAME" := "foo" ]}
      (ps_InitContainers sample_PodSpec) (ps_InitContainers (pod_Spec pod)) ∧
    env_appended sample_heap h' {[ "BUILD_ID" := "b1"; "JOB_NAME" := "foo" ]}
      (ps_Containers sample_PodSpec) (ps_Containers (pod_Spec pod)).
Proof.
  destruct (ProwJobToPod_containers sample_consts sample_NewJobSpec
              sample_EnvForSpec sample_rangeOrder sample_spareCap
              sample_record "b1" sample_heap
              {[ "BUILD_ID" := "b1"; "JOB_NAME" := "foo" ]} eq_refl)
    as (pod & h' & Hpod & Hinits & Hctrs & Hnd1 & Hnd2 & Henv).
  exists pod, h'.
  destruct Henv as [Henv1 Henv2];
    [intros k m; reflexivity | exact sample_env_separate |].
  split_and!; assumption.
Defined.

(** The containers of the sample pod: of the two containers, the unnamed one
    is named after the record and its index, and both end with the derived
    entries. *)
Example ProwJobToPod_sample_containers :
  (λ c, (ctr_Name c, env_Name <$> readEnv sample_pod_heap (ctr_Env c))) <$>
    ps_Containers (pod_Spec sample_pod) =
  [ ("pj-0", ["HOME"; "JOB_NAME"; "BUILD_ID"]);
    ("x", ["JOB_NAME"; "BUILD_ID"]) ].
Proof. by vm_compute. Qed.

(** Two containers whose environments share an array with spare capacity:
    the append for the first writes over the second variable of the second,
    and the append for the second writes over what the first received. The
    record's own second environment has changed too. *)
Example ProwJobToPod_shared_array :
  match ProwJobToPod sample_consts sample_NewJobSpec sample_EnvForSpec
          sample_rangeOrder sample_spareCap shared_record "b1" shared_heap
  with
  | Some (Some pod, _, h') =>
      ((λ c, env_Name <$> readEnv h' (ctr_Env c)) <$>
         ps_Containers (pod_Spec pod),
       (λ c, env_Name <$> readEnv h' (ctr_Env c)) <$>
         ps_Containers shared_PodSpec)
  | _ => ([], [])
  end =
  ([ ["A"; "JOB_NAME"; "JOB_NAME"];
     ["A"; "JOB_NAME"; "JOB_NAME"; "BUILD_ID"] ],
   [ ["A"]; ["A"; "JOB_NAME"] ]).
Proof. by vm_compute. Qed.

(** The same with a single derived entry K = v: the second container ends
    with that entry twice and has lost its variable B. *)
Example ProwJobToPod_shared_array_single :
  match ProwJobToPod sample_consts sample_NewJobSpec single_EnvForSpec
          sample_rangeOrder sample_spareCap shared_record "b1" shared_heap
  with
  | Some (Some pod, _, h') =>
      (λ c, (λ e, (env_Name e, env_Value e)) <$> readEnv h' (ctr_Env c)) <$>
        ps_Containers (pod_Spec pod)
  | _ => []
  end =
  [ [("A", "1"); ("K", "v")]; [("A", "1"); ("K", "v"); ("K", "v")] ].
Proof. by vm_compute. Qed.

(** C1 as stated fails. The unnamed init-container and the unnamed container
    of the sample record are both at index 0 of their lists and receive the
    same default name: the default names of a pod are not unique. *)
Lemma ProwJobToPod_default_names_collide :
  sample_ProwJobToPod sample_record "b1"
    = Some (Some sample_pod, None, sample_pod_heap) ∧
  pod_default_names (pjs_PodSpec (pj_Spec sample_record)) (pod_Spec sample_pod)
    = ["pj-0"; "pj-0"] ∧
  ¬ NoDup (pod_default_names (pjs_PodSpec (pj_Spec sample_record))
             (pod_Spec sample_pod)).
Proof.
  assert (pod_default_names (pjs_PodSpec (pj_Spec sample_record))
            (pod_Spec sample_pod) = ["pj-0"; "pj-0"]) as Hnames
    by (by vm_compute).
  split; [by vm_compute|]. split; [done|].
  rewrite Hnames. intros Hnd. apply NoDup_cons in Hnd as [Hnotin _].
  apply Hnotin. by left.
Qed.

(** C6. ProwJobToPod returns an error exactly when the derivation of the
    environment fails, and then it returns that error and no pod; when the
    derivation succeeds it returns a pod and no error. It never panics. *)
Theorem ProwJobToPod_error_iff (K : KubeConsts) {JobSpec error : Type}
    (NewJobSpec : ProwJobSpec → string → string → JobSpec)
    (EnvForSpec : JobSpec → gmap string string * option error)
    (rangeOrder : nat → gmap string string → list (string * string))
    (spareCap : nat → nat → nat)
    (pj : ProwJob) (buildID : string) (h : Heap) :
  match (EnvForSpec
           (NewJobSpec (pj_Spec pj) buildID (om_Name (pj_ObjectMeta pj)))).2
  with
  | Some err =>
      ProwJobToPod K NewJobSpec EnvForSpec rangeOrder spareCap pj buildID h
        = Some (None, Some err, h)
  | None =>
      ∃ pod h',
        ProwJobToPod K NewJobSpec EnvForSpec rangeOrder spareCap pj buildID h
          = Some (Some pod, None, h')
  end.
Proof.
  destruct (EnvForSpec _) as [env [err|]] eqn:Henv; simpl.
  - unfold ProwJobToPod. by rewrite Henv.
  - eexists _, _. by apply ProwJobToPod_derived.
Qed.

Example ProwJobToPod_sample_error :
  sample_ProwJobToPod sample_record ""
    = Some (None, Some "no build id", sample_heap).
Proof. reflexivity. Qed.

(** C7. For every record and buildID on which ProwJobToPod succeeds, the
    pod's name is the record's name, its labels are the record's labels with
    the created-by-prow label set to true and then the job-type label set to
    the spec's job type, its only annotation maps the job annotation to the
    job name, and its restart policy is Never. *)
Theorem ProwJobToPod_metadata (K : KubeConsts) {JobSpec error : Type}
    (NewJobSpec : ProwJobSpec → string → string → JobSpec)
    (EnvForSpec : JobSpec → gmap string string * option error)
    (rangeOrder : nat → gmap string string → list (string * string))
    (spareCap : nat → nat → nat)
    (pj : ProwJob) (buildID : string) (h : Heap) (pod : Pod) (h' : Heap) :
  visits_all rangeOrder →
  ProwJobToPod K NewJobSpec EnvForSpec rangeOrder spareCap pj buildID h
    = Some (Some pod, None, h') →
  om_Name (pod_ObjectMeta pod) = om_Name (pj_ObjectMeta pj) ∧
  om_Labels (pod_ObjectMeta pod) =
    <[ProwJobTypeLabel K := ProwJobType_string K (pjs_Type (pj_Spec pj))]>
      (<[CreatedByProw K := "true"]> (om_Labels (pj_ObjectMeta pj))) ∧
  om_Annotations (pod_ObjectMeta pod) =
    {[ ProwJobAnnotation K := pjs_Job (pj_Spec pj) ]} ∧
  ps_RestartPolicy (pod_Spec pod) = "Never".
Proof.
  intros Hall Hpod.
  destruct (EnvForSpec
              (NewJobSpec (pj_Spec pj) buildID (om_Name (pj_ObjectMeta pj))))
    as [env [err|]] eqn:Henv.
  { unfold ProwJobToPod in Hpod. by rewrite Henv in Hpod. }
  rewrite (ProwJobToPod_derived K NewJobSpec EnvForSpec rangeOrder spareCap
             pj buildID h env Henv) in Hpod.
  injection Hpod as <- _. simpl. by rewrite copy_labels.
Qed.

Lemma ProwJobToPod_metadata_witness :
  om_Name (pod_ObjectMeta sample_pod) = "pj" ∧
  om_Labels (pod_ObjectMeta sample_pod) =
    <["prow.k8s.io/type" := "presubmit"]>
      (<["created-by-prow" := "true"]> {[ "owner" := "sig-testing" ]}) ∧
  om_Annotations (pod_ObjectMeta sample_pod) = {[ "prow.k8s.io/job" := "foo" ]} ∧
  ps_RestartPolicy (pod_Spec sample_pod) = "Never".
Proof.
  apply (ProwJobToPod_metadata sample_consts sample_NewJobSpec
           sample_EnvForSpec sample_rangeOrder sample_spareCap sample_record
           "b1" sample_heap sample_pod sample_pod_heap).
  - intros k m. reflexivity.
  - vm_compute. reflexivity.
Defined.

(** * Further properties *)

(** ** Spec builders, node by node *)

Lemma agentFields_keeps_scalars K spec cluster pjs pjs' :
  agentFields K spec cluster pjs = Some pjs' →
  pjs_Report pjs' = pjs_Report pjs ∧ pjs_Context pjs' = pjs_Context pjs ∧
  pjs_RerunCommand pjs' = pjs_RerunCommand pjs ∧
  pjs_MaxConcurrency pjs' = pjs_MaxConcurrency pjs.
Proof.
  unfold agentFields. case_decide; [|by intros [= <-]].
  destruct spec as [podSpec|]; simpl; [|done].
  case_decide; by intros [= <-].
Qed.

Lemma Forall2_concat {A B : Type} (R : A → B → Prop) ls ks :
  Forall2 (Forall2 R) ls ks → Forall2 R (concat ls) (concat ks).
Proof.
  induction 1 as [|l k ls ks Hlk _ IH]; simpl; [constructor|].
  by apply Forall2_app.
Qed.

Section BuilderNodes.
Context (K : KubeConsts) {T : Type}.
Context (tagent tcluster : T → string).
Context (tspec : T → option PodSpec) (kids : T → list T).
Context (base : T → ProwJobSpec) (build : T → option ProwJobSpec).
Context (flat : T → list T) (R : T → ProwJobSpec → Prop).

Hypothesis T_nested_ind :
  ∀ P : T → Prop, (∀ p, Forall P (kids p) → P p) → ∀ p, P p.
Hypothesis build_unfold : ∀ p,
  build p =
    agentFields K (tspec p) (tcluster p) (set_pjs_Agent (tagent p) (base p))
    ≫= rangeChildren build (kids p).
Hypothesis base_RunAfterSuccess : ∀ p, pjs_RunAfterSuccess (base p) = [].
Hypothesis flat_unfold : ∀ p, flat p = p :: concat (map flat (kids p)).
Hypothesis node : ∀ p pjs0 ks,
  agentFields K (tspec p) (tcluster p) (set_pjs_Agent (tagent p) (base p))
    = Some pjs0 →
  length ks = length (kids p) →
  R p (set_pjs_RunAfterSuccess ks pjs0).

(** Every template of the chain is paired with the spec built for it. *)
Lemma build_nodes p pjs :
  build p = Some pjs → Forall2 R (flat p) (all_specs pjs).
Proof.
  revert pjs. induction p as [p IH] using T_nested_ind. intros pjs Hb.
  destruct (build_inv K tagent tcluster tspec kids base build build_unfold
              base_RunAfterSuccess p pjs Hb) as (pjs0 & Ha & Hks & Heq).
  rewrite flat_unfold.
  destruct pjs as [? ? ? ? ? ? ? ? ? ? ks]; simpl in *. constructor.
  - rewrite Heq. apply node; [done|]. symmetry. by eapply Forall2_length.
  - apply Forall2_concat.
    clear - IH Hks. induction Hks as [|c s cs ks Hc Hks IHks]; [constructor|].
    inversion_clear IH as [|? ? IHc IHcs]. simpl. constructor; eauto.
Qed.
End BuilderNodes.

(** The fields of a node, read off what the agent-conditional block
    returns. *)
Ltac node_fields :=
  let Ha := fresh "Ha" in
  intros [] ? ? Ha ?;
  pose proof (agentFields_keeps _ _ _ _ _ Ha) as (?&?&?&?&?);
  pose proof (agentFields_keeps_scalars _ _ _ _ _ Ha) as (?&?&?&?);
  apply agentFields_sets in Ha; [|done..];
  simpl in *; split_and!; by simplify_eq/=.

(** X1. A builder returns exactly on the well-formed templates: it panics on
    a nil pod template if and only if some template of the chain, at any
    depth, names the Kubernetes agent and has no pod template. *)
Theorem builders_return_iff_well_formed K (pre : Presubmit)
    (post : Postsubmit) (per : Periodic) (refs : Refs) :
  (PresubmitSpec K pre refs = None ↔ presubmit_ok K pre = false) ∧
  (PostsubmitSpec K post refs = None ↔ postsubmit_ok K post = false) ∧
  (PeriodicSpec K per = None ↔ periodic_ok K per = false) ∧
  (BatchSpec K pre refs = None ↔ presubmit_ok K pre = false).
Proof.
  split_and!; (split; [|by auto using PresubmitSpec_panics,
    PostsubmitSpec_panics, PeriodicSpec_panics, BatchSpec_panics]).
  - destruct (presubmit_ok K pre) eqn:Hok; [|done].
    destruct (PresubmitSpec_correct K pre refs Hok) as (s & -> & _). done.
  - destruct (postsubmit_ok K post) eqn:Hok; [|done].
    destruct (PostsubmitSpec_correct K post refs Hok) as (s & -> & _). done.
  - destruct (periodic_ok K per) eqn:Hok; [|done].
    destruct (PeriodicSpec_correct K per Hok) as (s & -> & _). done.
  - destruct (presubmit_ok K pre) eqn:Hok; [|done].
    destruct (BatchSpec_correct K pre refs Hok) as (s & -> & _). done.
Qed.

(** X2. PresubmitSpec on a well-formed template: every template of the
    chain, at any depth, gets a spec of type presubmit with its own name,
    context, rerun command and concurrency bound, the given refs, Report set
    to the negation of its SkipReport, its own agent-conditional fields, and
    as many continuations as it has children. *)
Theorem PresubmitSpec_nodes K (p : Presubmit) (refs : Refs) :
  presubmit_ok K p = true →
  ∃ pjs, PresubmitSpec K p refs = Some pjs ∧
         Forall2 (presubmit_node K refs) (all_presubmits p) (all_specs pjs).
Proof.
  intros (pjs & Hb & _)%(PresubmitSpec_correct K p refs).
  exists pjs. split; [done|].
  eapply (build_nodes K pre_Agent pre_Cluster pre_Spec pre_RunAfterSuccess _
            (λ c, PresubmitSpec K c refs) all_presubmits);
    [exact Presubmit_nested_ind | intros; apply PresubmitSpec_unfold
    | by intros [] | by intros [] | node_fields | done].
Qed.

Lemma PresubmitSpec_nodes_witness :
  ∃ pjs, PresubmitSpec sample_consts sample_presubmit sample_refs = Some pjs ∧
         Forall2 (presubmit_node sample_consts sample_refs)
           (all_presubmits sample_presubmit) (all_specs pjs).
Proof.
  apply (PresubmitSpec_nodes sample_consts sample_presubmit sample_refs).
  reflexivity.
Defined.

(** X3. PostsubmitSpec on a well-formed template: every template of the
    chain gets a spec of type postsubmit with its own name and concurrency
    bound, the given refs, its own agent-conditional fields and as many
    continuations as it has children; Report, Context and RerunCommand are
    never set. *)
Theorem PostsubmitSpec_nodes K (p : Postsubmit) (refs : Refs) :
  postsubmit_ok K p = true →
  ∃ pjs, PostsubmitSpec K p refs = Some pjs ∧
         Forall2 (postsubmit_node K refs) (all_postsubmits p) (all_specs pjs).
Proof.
  intros (pjs & Hb & _)%(PostsubmitSpec_correct K p refs).
  exists pjs. split; [done|].
  eapply (build_nodes K post_Agent post_Cluster post_Spec
            post_RunAfterSuccess _ (λ c, PostsubmitSpec K c refs)
            all_postsubmits);
    [exact Postsubmit_nested_ind | intros; apply PostsubmitSpec_unfold
    | by intros [] | by intros [] | node_fields | done].
Qed.

Lemma PostsubmitSpec_nodes_witness :
  ∃ pjs, PostsubmitSpec sample_consts sample_postsubmit sample_refs
           = Some pjs ∧
         Forall2 (postsubmit_node sample_consts sample_refs)
           (all_postsubmits sample_postsubmit) (all_specs pjs).
Proof.
  apply (PostsubmitSpec_nodes sample_consts sample_postsubmit sample_refs).
  reflexivity.
Defined.

(** X4. PeriodicSpec on a well-formed template: every template of the chain
    gets a spec of type periodic with its own name, its own agent-conditional
    fields and as many continuations as it has children; refs, Report,
    Context, RerunCommand and MaxConcurrency are never set. *)
Theorem PeriodicSpec_nodes K (p : Periodic) :
  periodic_ok K p = true →
  ∃ pjs, PeriodicSpec K p = Some pjs ∧
         Forall2 (periodic_node K) (all_periodics p) (all_specs pjs).
Proof.
  intros (pjs & Hb & _)%(PeriodicSpec_correct K p).
  exists pjs. split; [done|].
  eapply (build_nodes K per_Agent per_Cluster per_Spec per_RunAfterSuccess _
            (PeriodicSpec K) all_periodics);
    [exact Periodic_nested_ind | intros; apply PeriodicSpec_unfold
    | by intros [] | by intros [] | node_fields | done].
Qed.

Lemma PeriodicSpec_nodes_witness :
  ∃ pjs, PeriodicSpec sample_consts sample_periodic = Some pjs ∧
         Forall2 (periodic_node sample_consts)
           (all_periodics sample_periodic) (all_specs pjs).
Proof.
  apply (PeriodicSpec_nodes sample_consts sample_periodic). reflexivity.
Defined.

(** X5. BatchSpec on a well-formed presubmit template: every template of the
    chain gets a spec of type batch with its own name and context, the given
    refs, its own agent-conditional fields and as many continuations as it
    has children; unlike PresubmitSpec it never sets Report, RerunCommand or
    MaxConcurrency, whatever the template says. *)
Theorem BatchSpec_nodes K (p : Presubmit) (refs : Refs) :
  presubmit_ok K p = true →
  ∃ pjs, BatchSpec K p refs = Some pjs ∧
         Forall2 (batch_node K refs) (all_presubmits p) (all_specs pjs).
Proof.
  intros (pjs & Hb & _)%(BatchSpec_correct K p refs).
  exists pjs. split; [done|].
  eapply (build_nodes K pre_Agent pre_Cluster pre_Spec pre_RunAfterSuccess _
            (λ c, BatchSpec K c refs) all_presubmits);
    [exact Presubmit_nested_ind | intros; apply BatchSpec_unfold
    | by intros [] | by intros [] | node_fields | done].
Qed.

Lemma BatchSpec_nodes_witness :
  ∃ pjs, BatchSpec sample_consts sample_presubmit sample_refs = Some pjs ∧
         Forall2 (batch_node sample_consts sample_refs)
           (all_presubmits sample_presubmit) (all_specs pjs).
Proof.
  apply (BatchSpec_nodes sample_consts sample_presubmit sample_refs).
  reflexivity.
Defined.

Example BatchSpec_sample_drops_report :
  (λ pjs, (λ s, (pjs_Job s, pjs_Report s, pjs_MaxConcurrency s)) <$>
            all_specs pjs) <$>
    BatchSpec sample_consts sample_presubmit sample_refs =
  Some [("root", false, 0); ("a", false, 0); ("a1", false, 0);
        ("b", false, 0)].
Proof. reflexivity. Qed.

(** ** Refs along the chain *)

Lemma PresubmitSpec_chain K p refs pjs :
  PresubmitSpec K p refs = Some pjs →
  Forall2 (presubmit_node K refs) (all_presubmits p) (all_specs pjs).
Proof.
  intros Hb.
  eapply (build_nodes K pre_Agent pre_Cluster pre_Spec pre_RunAfterSuccess _
            (λ c, PresubmitSpec K c refs) all_presubmits);
    [exact Presubmit_nested_ind | intros; apply PresubmitSpec_unfold
    | by intros [] | by intros [] | node_fields | done].
Qed.

Lemma PostsubmitSpec_chain K p refs pjs :
  PostsubmitSpec K p refs = Some pjs →
  Forall2 (postsubmit_node K refs) (all_postsubmits p) (all_specs pjs).
Proof.
  intros Hb.
  eapply (build_nodes K post_Agent post_Cluster post_Spec
            post_RunAfterSuccess _ (λ c, PostsubmitSpec K c refs)
            all_postsubmits);
    [exact Postsubmit_nested_ind | intros; apply PostsubmitSpec_unfold
    | by intros [] | by intros [] | node_fields | done].
Qed.

Lemma PeriodicSpec_chain K p pjs :
  PeriodicSpec K p = Some pjs →
  Forall2 (periodic_node K) (all_periodics p) (all_specs pjs).
Proof.
  intros Hb.
  eapply (build_nodes K per_Agent per_Cluster per_Spec per_RunAfterSuccess _
            (PeriodicSpec K) all_periodics);
    [exact Periodic_nested_ind | intros; apply PeriodicSpec_unfold
    | by intros [] | by intros [] | node_fields | done].
Qed.

Lemma BatchSpec_chain K p refs pjs :
  BatchSpec K p refs = Some pjs →
  Forall2 (batch_node K refs) (all_presubmits p) (all_specs pjs).
Proof.
  intros Hb.
  eapply (build_nodes K pre_Agent pre_Cluster pre_Spec pre_RunAfterSuccess _
            (λ c, BatchSpec K c refs) all_presubmits);
    [exact Presubmit_nested_ind | intros; apply BatchSpec_unfold
    | by intros [] | by intros [] | node_fields | done].
Qed.

(** C3. On every well-formed template and every RefSet, PresubmitSpec,
    PostsubmitSpec and BatchSpec return a spec in which the root and every
    descendant of the RunAfterSuccess chain, one for each template of the
    template's chain and in the same order, carries the name of its template
    and the given Refs; PeriodicSpec returns such a spec in which the root
    and every descendant hold no Refs (the zero value). *)
Theorem Refs_propagate_through_chain K (pre : Presubmit) (post : Postsubmit)
    (per : Periodic) (refs : Refs) :
  presubmit_ok K pre = true →
  postsubmit_ok K post = true →
  periodic_ok K per = true →
  (∃ pjs, PresubmitSpec K pre refs = Some pjs ∧
          Forall2 (λ t s, pjs_Job s = pre_Name t ∧ pjs_Refs s = refs)
            (all_presubmits pre) (all_specs pjs)) ∧
  (∃ pjs, PostsubmitSpec K post refs = Some pjs ∧
          Forall2 (λ t s, pjs_Job s = post_Name t ∧ pjs_Refs s = refs)
            (all_postsubmits post) (all_specs pjs)) ∧
  (∃ pjs, BatchSpec K pre refs = Some pjs ∧
          Forall2 (λ t s, pjs_Job s = pre_Name t ∧ pjs_Refs s = refs)
            (all_presubmits pre) (all_specs pjs)) ∧
  (∃ pjs, PeriodicSpec K per = Some pjs ∧
          Forall2 (λ t s, pjs_Job s = per_Name t ∧ pjs_Refs s = zero_Refs)
            (all_periodics per) (all_specs pjs)).
Proof.
  intros Hpre Hpost Hper.
  destruct (PresubmitSpec_correct K pre refs Hpre) as (s1 & E1 & _).
  destruct (PostsubmitSpec_correct K post refs Hpost) as (s2 & E2 & _).
  destruct (PeriodicSpec_correct K per Hper) as (s3 & E3 & _).
  destruct (BatchSpec_correct K pre refs Hpre) as (s4 & E4 & _).
  split_and!; eexists; (split; [eassumption|]).
  - eapply Forall2_impl; [by apply PresubmitSpec_chain|].
    by intros t s (_ & ? & ? & _).
  - eapply Forall2_impl; [by apply PostsubmitSpec_chain|].
    by intros t s (_ & ? & ? & _).
  - eapply Forall2_impl; [by apply BatchSpec_chain|].
    by intros t s (_ & ? & ? & _).
  - eapply Forall2_impl; [by apply PeriodicSpec_chain|].
    by intros t s (_ & ? & ? & _).
Qed.

Lemma Refs_propagate_through_chain_witness :
  (∃ pjs, PresubmitSpec sample_consts sample_presubmit sample_refs = Some pjs ∧
          Forall2 (λ t s, pjs_Job s = pre_Name t ∧ pjs_Refs s = sample_refs)
            (all_presubmits sample_presubmit) (all_specs pjs)) ∧
  (∃ pjs, PostsubmitSpec sample_consts sample_postsubmit sample_refs
            = Some pjs ∧
          Forall2 (λ t s, pjs_Job s = post_Name t ∧ pjs_Refs s = sample_refs)
            (all_postsubmits sample_postsubmit) (all_specs pjs)) ∧
  (∃ pjs, BatchSpec sample_consts sample_presubmit sample_refs = Some pjs ∧
          Forall2 (λ t s, pjs_Job s = pre_Name t ∧ pjs_Refs s = sample_refs)
            (all_presubmits sample_presubmit) (all_specs pjs)) ∧
  (∃ pjs, PeriodicSpec sample_consts sample_periodic = Some pjs ∧
          Forall2 (λ t s, pjs_Job s = per_Name t ∧ pjs_Refs s = zero_Refs)
            (all_periodics sample_periodic) (all_specs pjs)).
Proof.
  apply (Refs_propagate_through_chain sample_consts sample_presubmit
           sample_postsubmit sample_periodic sample_refs); reflexivity.
Defined.

Example PresubmitSpec_sample_refs :
  (λ pjs, (λ s, (pjs_Job s, pjs_Refs s)) <$> all_specs pjs) <$>
    PresubmitSpec sample_consts sample_presubmit sample_refs =
  Some [("root", sample_refs); ("a", sample_refs); ("a1", sample_refs);
        ("b", sample_refs)].
Proof. reflexivity. Qed.

(** ** kubeEnv and ProwJobToPod *)

(** X6. kubeEnv loses nothing and adds nothing: whatever the order in which
    the map is traversed, reading its output back as a map gives the
    environment again, no variable name occurs twice, and there are as many
    variables as entries. *)
Theorem kubeEnv_round_trip
    (order : gmap string string → list (string * string))
    (env : gmap string string) :
  order env ≡ₚ map_to_list env →
  list_to_map ((λ e, (env_Name e, env_Value e)) <$> kubeEnv order env) = env ∧
  NoDup (env_Name <$> kubeEnv order env) ∧
  length (kubeEnv order env) = size env.
Proof.
  intros Hperm. rewrite kubeEnv_fmap.
  assert ((λ e, (env_Name e, env_Value e)) <$>
            ((λ kv : string * string,
                {| env_Name := kv.1; env_Value := kv.2 |}) <$> order env)
          = order env) as ->.
  { rewrite <- list_fmap_compose. rewrite <- (list_fmap_id (order env)) at 2.
    apply list_fmap_ext. by intros _ [] _. }
  assert (env_Name <$>
            ((λ kv : string * string,
                {| env_Name := kv.1; env_Value := kv.2 |}) <$> order env)
          = (order env).*1) as ->.
  { rewrite <- list_fmap_compose. apply list_fmap_ext. by intros _ [] _. }
  split_and!.
  - rewrite <- (list_to_map_to_list env) at 2.
    apply list_to_map_proper; [|done].
    rewrite Hperm. apply NoDup_fst_map_to_list.
  - rewrite Hperm. apply NoDup_fst_map_to_list.
  - by rewrite length_fmap, Hperm, length_map_to_list.
Qed.

Lemma kubeEnv_round_trip_witness :
  list_to_map ((λ e, (env_Name e, env_Value e)) <$>
     kubeEnv map_to_list {[ "BUILD_ID" := "b1"; "JOB_NAME" := "foo" ]})
    = ({[ "BUILD_ID" := "b1"; "JOB_NAME" := "foo" ]} : gmap string string) ∧
  NoDup (env_Name <$>
     kubeEnv map_to_list {[ "BUILD_ID" := "b1"; "JOB_NAME" := "foo" ]}) ∧
  length (kubeEnv map_to_list {[ "BUILD_ID" := "b1"; "JOB_NAME" := "foo" ]})
    = size ({[ "BUILD_ID" := "b1"; "JOB_NAME" := "foo" ]} : gmap string string).
Proof.
  apply (kubeEnv_round_trip map_to_list
           {[ "BUILD_ID" := "b1"; "JOB_NAME" := "foo" ]}).
  reflexivity.
Defined.

(** X7. The labels of a returned pod, key by key, when the two marker keys
    differ: the job-type key holds the spec's job type and the
    created-by-prow key holds true, even when the record has labels under
    these keys; every other key holds what the record's labels hold, and is
    absent when the record has no such label. *)
Theorem ProwJobToPod_label_lookup (K : KubeConsts) {JobSpec error : Type}
    (NewJobSpec : ProwJobSpec → string → string → JobSpec)
    (EnvForSpec : JobSpec → gmap string string * option error)
    (rangeOrder : nat → gmap string string → list (string * string))
    (spareCap : nat → nat → nat)
    (pj : ProwJob) (buildID : string) (h : Heap) (pod : Pod) (h' : Heap)
    (key : string) :
  visits_all rangeOrder →
  CreatedByProw K ≠ ProwJobTypeLabel K →
  ProwJobToPod K NewJobSpec EnvForSpec rangeOrder spareCap pj buildID h
    = Some (Some pod, None, h') →
  om_Labels (pod_ObjectMeta pod) !! key =
    if decide (key = ProwJobTypeLabel K)
    then Some (ProwJobType_string K (pjs_Type (pj_Spec pj)))
    else if decide (key = CreatedByProw K) then Some "true"
    else om_Labels (pj_ObjectMeta pj) !! key.
Proof.
  intros Hall Hne Hpod.
  rewrite (ProwJobToPod_labels K NewJobSpec EnvForSpec rangeOrder spareCap
             pj buildID h pod h' Hall Hpod).
  repeat case_decide; simplify_map_eq; done.
Qed.

Lemma ProwJobToPod_label_lookup_witness :
  om_Labels (pod_ObjectMeta sample_pod) !! "owner" =
    if decide ("owner" = ProwJobTypeLabel sample_consts)
    then Some (ProwJobType_string sample_consts
                 (pjs_Type (pj_Spec sample_record)))
    else if decide ("owner" = CreatedByProw sample_consts) then Some "true"
    else om_Labels (pj_ObjectMeta sample_record) !! "owner".
Proof.
  apply (ProwJobToPod_label_lookup sample_consts sample_NewJobSpec
           sample_EnvForSpec sample_rangeOrder sample_spareCap sample_record
           "b1" sample_heap sample_pod sample_pod_heap "owner").
  - intros k m. reflexivity.
  - vm_compute. discriminate.
  - vm_compute. reflexivity.
Defined.

(** X8. In a returned pod no container and no init-container is left
    without a name. *)
Theorem ProwJobToPod_all_named (K : KubeConsts) {JobSpec error : Type}
    (NewJobSpec : ProwJobSpec → string → string → JobSpec)
    (EnvForSpec : JobSpec → gmap string string * option error)
    (rangeOrder : nat → gmap string string → list (string * string))
    (spareCap : nat → nat → nat)
    (pj : ProwJob) (buildID : string) (h : Heap) (pod : Pod) (h' : Heap) :
  ProwJobToPod K NewJobSpec EnvForSpec rangeOrder spareCap pj buildID h
    = Some (Some pod, None, h') →
  Forall (λ c, ctr_Name c ≠ "")
         (ps_InitContainers (pod_Spec pod) ++ ps_Containers (pod_Spec pod)).
Proof.
  intros Hpod.
  destruct (ProwJobToPod_names K NewJobSpec EnvForSpec rangeOrder spareCap
              _ _ _ _ _ Hpod) as [Hinits Hctrs].
  apply Forall_app. split; by eapply names_defaulted_named.
Qed.

Lemma ProwJobToPod_all_named_witness :
  Forall (λ c, ctr_Name c ≠ "")
         (ps_InitContainers (pod_Spec sample_pod) ++
          ps_Containers (pod_Spec sample_pod)).
Proof.
  apply (ProwJobToPod_all_named sample_consts sample_NewJobSpec
           sample_EnvForSpec sample_rangeOrder sample_spareCap sample_record
           "b1" sample_heap sample_pod sample_pod_heap).
  vm_compute. reflexivity.
Defined.

(** ** From a template to a pod *)

Lemma PresubmitSpec_root K p refs pjs :
  PresubmitSpec K p refs = Some pjs → presubmit_node K refs p pjs.
Proof.
  intros Hb.
  assert (Forall2 (presubmit_node K refs) (all_presubmits p) (all_specs pjs))
    as Hall.
  { eapply (build_nodes K pre_Agent pre_Cluster pre_Spec pre_RunAfterSuccess _
              (λ c, PresubmitSpec K c refs) all_presubmits);
      [exact Presubmit_nested_ind | intros; apply PresubmitSpec_unfold
      | by intros [] | by intros [] | node_fields | done]. }
  destruct p, pjs; simpl in Hall. by inversion Hall.
Qed.

(** X9. A presubmit template turned into a spec, the spec into a record and
    the record into a pod: the pod is named after the fresh identifier, its
    annotation carries the template's name, its job-type label is presubmit,
    and it has exactly the containers of the template's pod template when
    the template's agent is the Kubernetes one, and no container at all for
    any other agent. *)
Theorem presubmit_to_pod (K : KubeConsts) {World JobSpec error : Type}
    (uuid_NewV1_String : World → string * World)
    (metav1_Now : World → Time * World)
    (NewJobSpec : ProwJobSpec → string → string → JobSpec)
    (EnvForSpec : JobSpec → gmap string string * option error)
    (rangeOrder : nat → gmap string string → list (string * string))
    (spareCap : nat → nat → nat)
    (p : Presubmit) (refs : Refs) (labels : gmap string string) (w : World)
    (buildID : string) (h : Heap) (pjs : ProwJobSpec) (pod : Pod)
    (h' : Heap) :
  visits_all rangeOrder →
  PresubmitSpec K p refs = Some pjs →
  ProwJobToPod K NewJobSpec EnvForSpec rangeOrder spareCap
    (NewProwJob uuid_NewV1_String metav1_Now pjs labels w).1 buildID h
    = Some (Some pod, None, h') →
  let template :=
    if decide (pre_Agent p = KubernetesAgent K)
    then default zero_PodSpec (pre_Spec p) else zero_PodSpec in
  om_Name (pod_ObjectMeta pod) = (uuid_NewV1_String w).1 ∧
  om_Annotations (pod_ObjectMeta pod) = {[ ProwJobAnnotation K := pre_Name p ]} ∧
  om_Labels (pod_ObjectMeta pod) !! ProwJobTypeLabel K
    = Some (ProwJobType_string K PresubmitJob) ∧
  length (ps_InitContainers (pod_Spec pod))
    = length (ps_InitContainers template) ∧
  length (ps_Containers (pod_Spec pod)) = length (ps_Containers template).
Proof.
  intros Hall Hb Hpod.
  destruct (PresubmitSpec_root K p refs pjs Hb)
    as (Hty & Hjob & _ & _ & _ & _ & _ & [_ Hagent] & _).
  assert (pjs_PodSpec pjs =
            if decide (pre_Agent p = KubernetesAgent K)
            then default zero_PodSpec (pre_Spec p) else zero_PodSpec) as Hps.
  { case_decide; [|by destruct Hagent]. destruct Hagent as [-> _]. done. }
  pose proof (ProwJobToPod_labels K NewJobSpec EnvForSpec rangeOrder spareCap
                _ _ _ _ _ Hall Hpod) as Hlabels.
  destruct (ProwJobToPod_inv K NewJobSpec EnvForSpec rangeOrder spareCap
              _ _ _ _ _ Hpod) as [env Henv].
  rewrite (ProwJobToPod_derived K NewJobSpec EnvForSpec rangeOrder spareCap
             _ buildID h env Henv) in Hpod.
  injection Hpod as <- _. revert Hlabels. unfold NewProwJob.
  destruct (uuid_NewV1_String w) as [name w1].
  destruct (metav1_Now w1) as [now w2]. simpl. intros ->.
  rewrite !materializeFrom_length, Hjob, Hty, Hps, lookup_insert_eq. done.
Qed.

Lemma presubmit_to_pod_witness :
  let template :=
    if decide (pre_Agent sample_presubmit = KubernetesAgent sample_consts)
    then default zero_PodSpec (pre_Spec sample_presubmit) else zero_PodSpec in
  om_Name (pod_ObjectMeta sample_created_pod) = (sample_uuid 3%nat).1 ∧
  om_Annotations (pod_ObjectMeta sample_created_pod)
    = {[ ProwJobAnnotation sample_consts := pre_Name sample_presubmit ]} ∧
  om_Labels (pod_ObjectMeta sample_created_pod)
    !! ProwJobTypeLabel sample_consts
    = Some (ProwJobType_string sample_consts PresubmitJob) ∧
  length (ps_InitContainers (pod_Spec sample_created_pod))
    = length (ps_InitContainers template) ∧
  length (ps_Containers (pod_Spec sample_created_pod))
    = length (ps_Containers template).
Proof.
  apply (presubmit_to_pod sample_consts sample_uuid sample_now
           sample_NewJobSpec sample_EnvForSpec sample_rangeOrder
           sample_spareCap sample_presubmit sample_refs
           {[ "owner" := "sig-testing" ]} 3%nat "b7" sample_heap
           sample_built_spec sample_created_pod sample_created_heap).
  - intros k m. reflexivity.
  - reflexivity.
  - vm_compute. reflexivity.
Defined.

Example presubmit_to_pod_sample :
  (om_Name (pod_ObjectMeta sample_created_pod),
   ctr_Name <$> ps_Containers (pod_Spec sample_created_pod)) =
  ("uuid-3", ["uuid-3-0"; "x"]).
Proof. by vm_compute. Qed.

(** ** PartitionActive and its consumers *)

Lemma PartitionActive_eq pjs :
  PartitionActive pjs =
  Some ({| ch_buf := filter (hasState PendingState) pjs;
           ch_cap := length (filter (hasState PendingState) pjs);
           ch_closed := true |},
        {| ch_buf := filter (hasState TriggeredState) pjs;
           ch_cap := length (filter (hasState TriggeredState) pjs);
           ch_closed := true |}).
Proof.
  unfold PartitionActive. rewrite PartitionActive_counts; simpl.
  unfold make_chan. by rewrite PartitionActive_sends by (simpl; lia).
Qed.

(** Ranging over a closed channel ends once the buffer is drained. *)
Lemma rangeChan_closed buf : ∀ fuel cap seen,
  (length buf < fuel)%nat →
  rangeChan fuel {| ch_buf := buf; ch_cap := cap; ch_closed := true |} seen
  = Some (seen ++ buf, {| ch_buf := []; ch_cap := cap; ch_closed := true |}).
Proof.
  induction buf as [|x buf IH]; intros [|fuel] cap seen Hfuel;
    simpl in *; try lia.
  - by rewrite app_nil_r.
  - rewrite IH by lia. by rewrite <- app_assoc.
Qed.

(** Ranging over a channel that is never closed does not end, whatever the
    number of receives allowed. *)
Lemma rangeChan_open buf : ∀ fuel cap seen,
  rangeChan fuel {| ch_buf := buf; ch_cap := cap; ch_closed := false |} seen
  = None.
Proof.
  induction buf as [|x buf IH]; intros [|fuel] cap seen; simpl; try done.
Qed.

(** X10. A consumer that ranges over a channel returned by PartitionActive
    never blocks: after receiving the pending (or triggered) records, in
    input order, it finds the channel closed and its loop ends, as soon as
    it is allowed more receives than there are records. *)
Theorem PartitionActive_drains (pjs : list ProwJob) (fuel : nat) :
  (length pjs < fuel)%nat →
  ∃ pending triggered,
    PartitionActive pjs = Some (pending, triggered) ∧
    rangeChan fuel pending [] =
      Some (filter (hasState PendingState) pjs,
            {| ch_buf := []; ch_cap := ch_cap pending; ch_closed := true |}) ∧
    rangeChan fuel triggered [] =
      Some (filter (hasState TriggeredState) pjs,
            {| ch_buf := []; ch_cap := ch_cap triggered; ch_closed := true |}).
Proof.
  intros Hfuel. eexists _, _. split; [apply PartitionActive_eq|].
  split; (rewrite rangeChan_closed; [done|]);
    eapply Nat.le_lt_trans; [apply length_filter|done|apply length_filter|done].
Qed.

Lemma PartitionActive_drains_witness :
  ∃ pending triggered,
    PartitionActive sample_states = Some (pending, triggered) ∧
    rangeChan 5 pending [] =
      Some (filter (hasState PendingState) sample_states,
            {| ch_buf := []; ch_cap := ch_cap pending; ch_closed := true |}) ∧
    rangeChan 5 triggered [] =
      Some (filter (hasState TriggeredState) sample_states,
            {| ch_buf := []; ch_cap := ch_cap triggered; ch_closed := true |}).
Proof.
  apply (PartitionActive_drains sample_states 5). simpl. lia.
Defined.

Lemma filter_all {A : Type} (P : A → Prop) `{!∀ x, Decision (P x)} l :
  Forall P l → filter P l = l.
Proof.
  induction 1 as [|x l Hx _ IH]; [done|].
  by rewrite filter_cons_True, IH.
Qed.

Lemma filter_none {A : Type} (P : A → Prop) `{!∀ x, Decision (P x)} l :
  Forall (λ x, ¬ P x) l → filter P l = [].
Proof.
  induction 1 as [|x l Hx _ IH]; [done|].
  by rewrite filter_cons_False, IH.
Qed.

Lemma filter_hasState_same s (pjs : list ProwJob) :
  filter (hasState s) (filter (hasState s) pjs) = filter (hasState s) pjs.
Proof.
  apply filter_all, Forall_forall. by intros pj [? _]%list_elem_of_filter.
Qed.

Lemma filter_hasState_other s s' (pjs : list ProwJob) :
  s ≠ s' → filter (hasState s) (filter (hasState s') pjs) = [].
Proof.
  intros Hne. apply filter_none, Forall_forall.
  intros pj [Hs' _]%list_elem_of_filter Hs. unfold hasState in *. congruence.
Qed.

(** X11. Partitioning is idempotent on in-flight work: partitioning again
    the records of the two groups, pending first, gives the same two
    channels. *)
Theorem PartitionActive_idempotent (pjs : list ProwJob)
    (pending triggered : chan) :
  PartitionActive pjs = Some (pending, triggered) →
  PartitionActive (ch_buf pending ++ ch_buf triggered)
    = Some (pending, triggered).
Proof.
  rewrite PartitionActive_eq. intros [= <- <-]. simpl.
  rewrite PartitionActive_eq, !filter_app.
  rewrite !filter_hasState_same, !filter_hasState_other by done.
  by rewrite app_nil_r.
Qed.

Lemma PartitionActive_idempotent_witness :
  PartitionActive
    ([ sample_job "j1" PresubmitJob "foo" 10 PendingState;
       sample_job "j4" PresubmitJob "foo" 40 PendingState ] ++
     [ sample_job "j2" PresubmitJob "foo" 20 TriggeredState ])
  = Some ({| ch_buf := [ sample_job "j1" PresubmitJob "foo" 10 PendingState;
                         sample_job "j4" PresubmitJob "foo" 40 PendingState ];
             ch_cap := 2; ch_closed := true |},
          {| ch_buf := [ sample_job "j2" PresubmitJob "foo" 20 TriggeredState ];
             ch_cap := 1; ch_closed := true |}).
Proof.
  apply (PartitionActive_idempotent sample_states
    {| ch_buf := [ sample_job "j1" PresubmitJob "foo" 10 PendingState;
                   sample_job "j4" PresubmitJob "foo" 40 PendingState ];
       ch_cap := 2; ch_closed := true |}
    {| ch_buf := [ sample_job "j2" PresubmitJob "foo" 20 TriggeredState ];
       ch_cap := 1; ch_closed := true |}).
  reflexivity.
Defined.

(** X12. A record fresh from NewProwJob is triggered work: added to any
    record list, it is the last record of the triggered group and leaves the
    pending group as it was. *)
Theorem NewProwJob_lands_in_triggered {World : Type}
    (uuid_NewV1_String : World → string * World)
    (metav1_Now : World → Time * World)
    (spec : ProwJobSpec) (labels : gmap string string) (w : World)
    (pjs : list ProwJob) :
  let pj := (NewProwJob uuid_NewV1_String metav1_Now spec labels w).1 in
  ∃ pending triggered,
    PartitionActive (pjs ++ [pj]) = Some (pending, triggered) ∧
    ch_buf pending = filter (hasState PendingState) pjs ∧
    ch_buf triggered = filter (hasState TriggeredState) pjs ++ [pj].
Proof.
  intros pj. eexists _, _. split; [apply PartitionActive_eq|]. simpl.
  rewrite !filter_app. subst pj. unfold NewProwJob.
  destruct (uuid_NewV1_String w) as [name w1].
  destruct (metav1_Now w1) as [now w2]. simpl.
  rewrite filter_cons_False, filter_cons_True by done.
  by rewrite !filter_nil, app_nil_r.
Qed.

(** ** GetLatestProwJobs, further *)

Lemma elem_of_candidates j pjs jobType name :
  j ∈ candidates pjs jobType name ↔
  j ∈ pjs ∧ pjs_Type (pj_Spec j) = jobType ∧ pjs_Job (pj_Spec j) = name.
Proof. unfold candidates. rewrite list_elem_of_filter. tauto. Qed.

(** X13. Every entry of the mapping is a record of the input, of the
    requested type, filed under its own job name, and no record of the input
    with that type and job name started later. *)
Theorem GetLatestProwJobs_entries (pjs : list ProwJob)
    (jobType : ProwJobType) (name : string) (j : ProwJob) :
  GetLatestProwJobs pjs jobType !! name = Some j →
  j ∈ pjs ∧ pjs_Type (pj_Spec j) = jobType ∧ pjs_Job (pj_Spec j) = name ∧
  Forall (λ j', pjs_Type (pj_Spec j') = jobType →
                pjs_Job (pj_Spec j') = name →
                startTime j' ≤ startTime j) pjs.
Proof.
  intros Hj.
  pose proof (GetLatestProwJobs_invariant pjs jobType name) as Hinv.
  rewrite Hj in Hinv. destruct Hinv as [_ Hfl].
  pose proof (first_latest_elem_of _ _ Hfl) as (?&?&?)%elem_of_candidates.
  split_and!; try done.
  apply first_latest_Forall in Hfl. rewrite Forall_forall in Hfl.
  apply Forall_forall. intros j' Hj' Hty Hn.
  apply Hfl, elem_of_candidates. done.
Qed.

Lemma GetLatestProwJobs_entries_witness :
  sample_job "r2" PresubmitJob "foo" 200 PendingState ∈ sample_runs ∧
  pjs_Type (pj_Spec (sample_job "r2" PresubmitJob "foo" 200 PendingState))
    = PresubmitJob ∧
  pjs_Job (pj_Spec (sample_job "r2" PresubmitJob "foo" 200 PendingState))
    = "foo" ∧
  Forall (λ j', pjs_Type (pj_Spec j') = PresubmitJob →
                pjs_Job (pj_Spec j') = "foo" →
                startTime j' ≤
                startTime (sample_job "r2" PresubmitJob "foo" 200 PendingState))
         sample_runs.
Proof.
  apply (GetLatestProwJobs_entries sample_runs PresubmitJob "foo"
           (sample_job "r2" PresubmitJob "foo" 200 PendingState)).
  vm_compute. reflexivity.
Defined.

(** X14. The job names of the mapping are exactly the job names of the
    records of the requested type that started strictly after the zero
    time. *)
Theorem GetLatestProwJobs_dom (pjs : list ProwJob) (jobType : ProwJobType) :
  dom (GetLatestProwJobs pjs jobType) =
  list_to_set
    ((λ j, pjs_Job (pj_Spec j)) <$>
       filter (λ j, pjs_Type (pj_Spec j) = jobType ∧ zero_Time < startTime j)
              pjs).
Proof.
  apply set_eq. intros name.
  rewrite elem_of_dom, elem_of_list_to_set, list_elem_of_fmap.
  pose proof (GetLatestProwJobs_invariant pjs jobType name) as Hinv.
  split.
  - intros [j Hj]. rewrite Hj in Hinv. destruct Hinv as [Hpos Hfl].
    apply first_latest_elem_of, elem_of_candidates in Hfl as (?&?&?).
    exists j. split; [done|]. by apply list_elem_of_filter.
  - intros (j & -> & [[Hty Hpos] Hin]%list_elem_of_filter).
    destruct (GetLatestProwJobs pjs jobType !! pjs_Job (pj_Spec j))
      as [j'|]; [by eauto|].
    rewrite Forall_forall in Hinv.
    assert (startTime j ≤ zero_Time); [|lia].
    by apply Hinv, elem_of_candidates.
Qed.

(** X15. When records of one type and job name never share a start time,
    the order of the input does not matter: a rearranged record list gives
    the same mapping. *)
Theorem GetLatestProwJobs_order_independent (pjs pjs' : list ProwJob)
    (jobType : ProwJobType) :
  pjs ≡ₚ pjs' →
  (∀ j1 j2, j1 ∈ pjs → j2 ∈ pjs →
            pjs_Type (pj_Spec j1) = pjs_Type (pj_Spec j2) →
            pjs_Job (pj_Spec j1) = pjs_Job (pj_Spec j2) →
            startTime j1 = startTime j2 → j1 = j2) →
  GetLatestProwJobs pjs jobType = GetLatestProwJobs pjs' jobType.
Proof.
  intros Hperm Hdistinct. apply map_eq. intros name.
  pose proof (GetLatestProwJobs_invariant pjs jobType name) as Hinv.
  pose proof (GetLatestProwJobs_invariant pjs' jobType name) as Hinv'.
  assert (∀ j, j ∈ candidates pjs' jobType name ↔
               j ∈ candidates pjs jobType name) as Hsame.
  { intros j. rewrite !elem_of_candidates. by rewrite Hperm. }
  destruct (GetLatestProwJobs pjs jobType !! name) as [j|],
           (GetLatestProwJobs pjs' jobType !! name) as [j'|].
  - destruct Hinv as [_ Hfl], Hinv' as [_ Hfl']. f_equal.
    pose proof (first_latest_elem_of _ _ Hfl) as Hj.
    pose proof (first_latest_elem_of _ _ Hfl') as Hj'.
    apply first_latest_Forall in Hfl, Hfl'.
    rewrite Forall_forall in Hfl, Hfl'.
    pose proof (Hfl j' (proj1 (Hsame j') Hj')).
    pose proof (Hfl' j (proj2 (Hsame j) Hj)).
    apply Hsame in Hj'.
    apply elem_of_candidates in Hj as (?&?&?), Hj' as (?&?&?).
    apply Hdistinct; [done|done|congruence|congruence|lia].
  - destruct Hinv as [Hpos Hj%first_latest_elem_of%Hsame].
    rewrite Forall_forall in Hinv'. specialize (Hinv' j Hj). lia.
  - destruct Hinv' as [Hpos Hj'%first_latest_elem_of%Hsame].
    rewrite Forall_forall in Hinv. specialize (Hinv j' Hj'). lia.
  - done.
Qed.

Lemma GetLatestProwJobs_order_independent_witness :
  GetLatestProwJobs sample_runs PresubmitJob =
  GetLatestProwJobs (reverse sample_runs) PresubmitJob.
Proof.
  apply (GetLatestProwJobs_order_independent sample_runs
           (reverse sample_runs) PresubmitJob).
  - symmetry. apply reverse_Permutation.
  - intros j1 j2 H1 H2 _ _. unfold sample_runs in H1, H2.
    rewrite !elem_of_cons, elem_of_nil in H1, H2.
    destruct H1 as [->|[->|[->|[]]]], H2 as [->|[->|[->|[]]]];
      vm_compute; congruence.
Defined.

(** X16. Records seen later never remove an entry and never replace it by an
    earlier one: extending the input keeps every job name of the mapping,
    with a start time at least as late. *)
Theorem GetLatestProwJobs_monotone (pjs more : list ProwJob)
    (jobType : ProwJobType) (name : string) (j : ProwJob) :
  GetLatestProwJobs pjs jobType !! name = Some j →
  ∃ j', GetLatestProwJobs (pjs ++ more) jobType !! name = Some j' ∧
        startTime j ≤ startTime j'.
Proof.
  intros Hj. induction more as [|x more IH] using rev_ind.
  { rewrite app_nil_r. exists j. split; [done|lia]. }
  destruct IH as (j' & Hj' & Hle).
  rewrite app_assoc, GetLatestProwJobs_snoc. simpl.
  case_decide; [by eauto|].
  destruct (After _ _) eqn:Haft; [|by eauto].
  destruct (decide (pjs_Job (pj_Spec x) = name)) as [Hn|Hn].
  - rewrite Hn in *. rewrite lookup_insert_eq. exists x. split; [done|].
    apply After_spec in Haft. unfold startTimeAt in Haft.
    rewrite Hj' in Haft. simpl in Haft. unfold startTime in *. lia.
  - rewrite lookup_insert_ne by done. eauto.
Qed.

Lemma GetLatestProwJobs_monotone_witness :
  ∃ j', GetLatestProwJobs
          ([sample_job "r1" PresubmitJob "foo" 100 SuccessState] ++
           [sample_job "r2" PresubmitJob "foo" 200 PendingState])
          PresubmitJob !! "foo" = Some j' ∧
        startTime (sample_job "r1" PresubmitJob "foo" 100 SuccessState)
          ≤ startTime j'.
Proof.
  apply (GetLatestProwJobs_monotone
           [sample_job "r1" PresubmitJob "foo" 100 SuccessState]
           [sample_job "r2" PresubmitJob "foo" 200 PendingState]
           PresubmitJob "foo"
           (sample_job "r1" PresubmitJob "foo" 100 SuccessState)).
  vm_compute. reflexivity.
Defined.

(** ** ProwJobFields *)

Lemma String_length_pos (s : string) : (0 < String.length s)%nat ↔ s ≠ "".
Proof. destruct s; simpl; split; (done || lia). Qed.

(** X17. ProwJobFields panics only on a nil record. On a record it returns
    fields whose keys are name, job and type, plus the event key exactly when
    the record's label under that key is a non-empty string, plus the
    pull-request, repository and organization keys exactly when the refs
    hold one pull request. *)
Theorem ProwJobFields_keys (G : GithubConsts) (pj : ProwJob) :
  ∃ fields,
    ProwJobFields G (Some pj) = Some fields ∧
    dom fields =
      {[ "name"; "job"; "type" ]} ∪
      (if decide (default "" (om_Labels (pj_ObjectMeta pj) !! EventGUID G) = "")
       then ∅ else {[ EventGUID G ]}) ∪
      (if decide (length (refs_Pulls (pjs_Refs (pj_Spec pj))) = 1%nat)
       then {[ PrLogField G; RepoLogField G; OrgLogField G ]} else ∅).
Proof.
  unfold ProwJobFields. simpl.
  rewrite (decide_ext _ _ _ _ (String_length_pos _)).
  destruct (refs_Pulls (pjs_Refs (pj_Spec pj))) as [|pull [|pull' pulls]];
    simpl; eexists; (split; [done|]);
    destruct (decide (default "" (om_Labels (pj_ObjectMeta pj) !! EventGUID G)
                      = "")) as [Hg|Hg];
    rewrite ?(decide_True (P := _ ≠ _)), ?(decide_False (P := _ ≠ _))
      by tauto;
    rewrite ?decide_True, ?decide_False by done;
    rewrite ?dom_insert_L, ?dom_empty_L;
    apply set_eq; intros k;
    rewrite !elem_of_union, !elem_of_singleton, ?elem_of_empty; tauto.
Qed.

Example ProwJobFields_nil G : ProwJobFields G None = None.
Proof. done. Qed.

(** X18. With pairwise distinct keys, the fields hold the record's name, its
    job name and its job type; the event key holds the record's label under
    that key, and is absent when the label is missing or empty; the
    pull-request, repository and organization keys hold the number of the
    pull request and the repository and organization of the refs when the
    refs hold exactly one pull request, and are absent for none or
    several. *)
Theorem ProwJobFields_values (G : GithubConsts) (pj : ProwJob)
    (fields : gmap string FieldValue) :
  distinct_keys G →
  ProwJobFields G (Some pj) = Some fields →
  let guid := default "" (om_Labels (pj_ObjectMeta pj) !! EventGUID G) in
  let refs := pjs_Refs (pj_Spec pj) in
  let single (v : Pull → FieldValue) :=
    match refs_Pulls refs with [pull] => Some (v pull) | _ => None end in
  fields !! "name" = Some (FieldString (om_Name (pj_ObjectMeta pj))) ∧
  fields !! "job" = Some (FieldString (pjs_Job (pj_Spec pj))) ∧
  fields !! "type" = Some (FieldJobType (pjs_Type (pj_Spec pj))) ∧
  fields !! EventGUID G =
    (if decide (guid = "") then None else Some (FieldString guid)) ∧
  fields !! PrLogField G = single (λ pull, FieldInt (pull_Number pull)) ∧
  fields !! RepoLogField G = single (λ _, FieldString (refs_Repo refs)) ∧
  fields !! OrgLogField G = single (λ _, FieldString (refs_Org refs)).
Proof.
  unfold distinct_keys. rewrite !NoDup_cons, !not_elem_of_cons.
  intros Hkeys. destruct_and!. unfold ProwJobFields. simpl.
  rewrite (decide_ext _ _ _ _ (String_length_pos _)).
  destruct (refs_Pulls (pjs_Refs (pj_Spec pj))) as [|pull [|pull' pulls]];
    simpl; intros [= <-];
    destruct (decide (default "" (om_Labels (pj_ObjectMeta pj) !! EventGUID G)
                      = "")) as [Hg|Hg];
    rewrite ?(decide_True (P := _ ≠ _)), ?(decide_False (P := _ ≠ _))
      by tauto;
    split_and!; by simplify_map_eq.
Qed.

Lemma ProwJobFields_values_witness :
  sample_fields !! "name" = Some (FieldString "pj") ∧
  sample_fields !! "job" = Some (FieldString "foo") ∧
  sample_fields !! "type" = Some (FieldJobType PresubmitJob) ∧
  sample_fields !! "event-GUID" = Some (FieldString "e-42") ∧
  sample_fields !! "pr" = Some (FieldInt 7) ∧
  sample_fields !! "repo" = Some (FieldString "test-infra") ∧
  sample_fields !! "org" = Some (FieldString "kubernetes").
Proof.
  apply (ProwJobFields_values sample_github sample_event_record sample_fields).
  - unfold distinct_keys. apply (bool_decide_unpack _). by vm_compute.
  - by vm_compute.
Defined.
